(** * InequalityGames: the half-plane geometry engine

    A shallow embedding of the geometric core of the games
    ([src/FeasibleZone.tsx], [src/HalfPlaneHero.tsx], [src/types.ts]) and the
    properties the specification states about it.

    Numbers.  The source computes on JavaScript [number]s; the data model of
    the specification has real-valued coordinates.  The embedding idealises
    the numbers as exact: no rounding, no infinities, no NaN.
    - The polygon engine ([FeasibleZone]), the rectangle clipper of
      [HalfPlaneHero] and the number-line helpers ([SafetyBubble]) only add,
      subtract, multiply, divide, round and compare, so they are embedded
      over the rationals [Q] and every definition computes.  [Math.hypot]
      only occurs there inside a comparison with a constant, which is
      embedded as the comparison of the squares ([hypot_gtb], tied to the
      real square root by [hypot_gtb_sqrt]).
    - Line canonicalisation and the visible chord ([lineFromPoints],
      [sameLine], [targetLine], [boundarySegment]) compute with the values
      of [Math.hypot], so they are embedded over the reals [R].
    Equality of rationals is [Qeq] ([==]); points and polygons are compared
    coordinate by coordinate with it ([pt_eq], [poly_eq]).
    A division by zero, an infinity or a NaN in JavaScript, has no
    counterpart here: every statement about code that divides either proves
    the divisor non-zero or assumes it.
    - Exact identities proved over [Q] or [R] hold of the program up to the
      rounding of its binary64 operations.  Where a statement is about the
      exact value of a rounded sum, the function is embedded a second time on
      Rocq's primitive binary64 floats ([FeasibleZoneFloat]). *)

From Stdlib Require Import QArith Qabs Qround Qreals Reals Psatz Lia List Bool ZArith
  Permutation.
From Stdlib Require PrimFloat.
Import ListNotations.

(** The four comparators, [type Comparator = "<=" | "<" | ">=" | ">"]. *)
Inductive Comparator : Type := CLe | CLt | CGe | CGt.

(** ** JavaScript comparisons on exact rationals *)

(** [u < v] *)
Definition Qltb (u v : Q) : bool := negb (Qle_bool v u).

(** [Math.hypot(u, v) > t], decided on the squares. *)
Definition hypot_gtb (u v t : Q) : bool :=
  Qltb t 0 || Qltb (t * t) (u * u + v * v).

(** [Math.round(q)]: the nearest integer, halves towards plus infinity. *)
Definition jsRound (q : Q) : Z := Qfloor (q + 0.5).

(** [Math.max(u, v)] and [Math.min(u, v)] *)
Definition jsMax (u v : Q) : Q := if Qle_bool u v then v else u.
Definition jsMin (u v : Q) : Q := if Qle_bool u v then u else v.

(** [n || d] on numbers: [d] when [n] is zero. *)
Definition QorElse (n d : Q) : Q := if Qeq_bool n 0 then d else n.

(** [l.map((k, i) => f(i, k))], the index starting at [i0]. *)
Fixpoint mapi {A B : Type} (f : nat -> A -> B) (i0 : nat) (l : list A) : list B :=
  match l with
  | [] => []
  | k :: l' => f i0 k :: mapi f (S i0) l'
  end.

(** ** JavaScript operations on exact reals *)

(** [u < v] *)
Definition Rltb (u v : R) : bool := if Rlt_dec u v then true else false.

(** [u <= v] *)
Definition Rleb (u v : R) : bool := if Rle_dec u v then true else false.

(** [Math.hypot(u, v)] *)
Definition hypot (u v : R) : R := sqrt (u * u + v * v).

(** [n || d] on numbers: [d] when [n] is falsy, that is when [n] is zero
    (a NaN, also falsy, does not exist in the idealised numbers). *)
Definition orElse (n d : R) : R := if Req_dec_T n 0 then d else n.

(** ** src/FeasibleZone.tsx *)
Module FeasibleZone.
Local Open Scope Q_scope.

(** [Constraint]; the presentation fields [id], [label] and [color] play no
    part in the geometry and are left out. *)
Record Constraint : Type := mkConstraint { a : Q; b : Q; c : Q; comp : Comparator }.

Record Domain2D : Type := mkDomain { xmin : Q; xmax : Q; ymin : Q; ymax : Q }.

Record Pt : Type := mkPt { x : Q; y : Q }.

Definition insideHalfPlane (p : Pt) (k : Constraint) : bool :=
  let s := a k * x p + b k * y p in
  match comp k with
  | CLe => Qle_bool s (c k + 1e-9)
  | CLt => Qltb s (c k - 1e-9)
  | CGe => Qle_bool (c k - 1e-9) s
  | CGt => Qltb (c k + 1e-9) s
  end.

Definition intersectLineSegWithLine (p q : Pt) (k : Constraint) : Pt :=
  let dx := x q - x p in
  let dy := y q - y p in
  let den := a k * dx + b k * dy in
  if Qltb (Qabs den) 1e-12 then q
  else
    let t := (c k - (a k * x p + b k * y p)) / den in
    mkPt (x p + t * dx) (y p + t * dy).

(** One iteration of the first loop of [clipPolyByHalfPlane].  The loop state
    is [(out, S)]; [S_in] is the constant computed once before the loop. *)
Definition clipStep (k : Constraint) (S_in : bool)
    (st : list Pt * Pt) (E : Pt) : list Pt * Pt :=
  let out := fst st in
  let S_ := snd st in
  let E_in := insideHalfPlane E k in
  let out' :=
    if E_in then
      (if negb S_in then out ++ [intersectLineSegWithLine S_ E k] else out) ++ [E]
    else if S_in then out ++ [intersectLineSegWithLine S_ E k]
    else out in
  (out', E).

(** [cleaned[cleaned.length - 1]], [None] for [undefined]. *)
Definition lastOpt (l : list Pt) : option Pt :=
  match l with
  | [] => None
  | p :: _ => Some (last l p)
  end.

(** One iteration of the cleanup loop. *)
Definition cleanStep (cleaned : list Pt) (p : Pt) : list Pt :=
  match lastOpt cleaned with
  | None => cleaned ++ [p]
  | Some l =>
      if hypot_gtb (x p - x l) (y p - y l) 1e-6 then cleaned ++ [p] else cleaned
  end.

(** The first loop: the walk over the edges, before the cleanup. *)
Definition clipWalk (poly : list Pt) (k : Constraint) : list Pt :=
  match poly with
  | [] => []
  | p0 :: _ =>
      let S_ := last poly p0 in
      let S_in := insideHalfPlane S_ k in
      fst (fold_left (clipStep k S_in) poly ([], S_))
  end.

Definition cleanup (out : list Pt) : list Pt := fold_left cleanStep out [].

Definition clipPolyByHalfPlane (poly : list Pt) (k : Constraint) : list Pt :=
  match poly with
  | [] => []
  | _ :: _ => cleanup (clipWalk poly k)
  end.

Definition initRect (dom : Domain2D) : list Pt :=
  [ mkPt (xmin dom) (ymin dom);
    mkPt (xmax dom) (ymin dom);
    mkPt (xmax dom) (ymax dom);
    mkPt (xmin dom) (ymax dom) ].

Definition feasiblePolygon (dom : Domain2D) (constraints : list Constraint) : list Pt :=
  fold_left clipPolyByHalfPlane constraints (initRect dom).

(** [a.x * b.y - a.y * b.x] *)
Definition cross (pa pb : Pt) : Q := x pa * y pb - y pa * x pb.

(** The signed sum [s] accumulated by the loop of [polygonArea]. *)
Definition shoelace (poly : list Pt) : Q :=
  let n := length poly in
  let d := mkPt 0 0 in
  fold_left
    (fun s i => s + cross (nth i poly d) (nth ((i + 1) mod n) poly d))
    (seq 0 n) 0.

Definition polygonArea (poly : list Pt) : Q :=
  if (length poly <? 3)%nat then 0 else Qabs (shoelace poly) / 2.

Definition step : Q := 0.5.

(** The inner loop of [systemsEquivalent],
    [for (let y = dom.ymin; y <= dom.ymax; y += step)], on [fuel] iterations at
    most.  [Some false]: a mismatch was found and the function returns
    [false]; [Some true]: the loop ran to its end; [None]: out of fuel. *)
Fixpoint loopY (fuel : nat) (A B : list Constraint) (ymax_ : Q) (px py : Q)
    : option bool :=
  match fuel with
  | O => None
  | S fuel' =>
      if Qle_bool py ymax_ then
        let p := mkPt px py in
        let inA := forallb (fun k => insideHalfPlane p k) A in
        let inB := forallb (fun k => insideHalfPlane p k) B in
        if negb (Bool.eqb inA inB) then Some false
        else loopY fuel' A B ymax_ px (py + step)
      else Some true
  end.

(** The number of iterations of [for (v = lo; v <= hi; v += step)]. *)
Definition iterations (lo hi : Q) : nat :=
  if Qle_bool lo hi then Z.to_nat (Qfloor ((hi - lo) / step) + 1) else O.

(** The outer loop,
    [for (let x = dom.xmin; x <= dom.xmax; x += step)]. *)
Fixpoint loopX (fuel : nat) (A B : list Constraint) (dom : Domain2D) (px : Q)
    : option bool :=
  match fuel with
  | O => None
  | S fuel' =>
      if Qle_bool px (xmax dom) then
        match loopY (S (iterations (ymin dom) (ymax dom))) A B (ymax dom) px (ymin dom) with
        | Some true => loopX fuel' A B dom (px + step)
        | r => r
        end
      else Some true
  end.

Definition systemsEquivalent (dom : Domain2D) (A B : list Constraint) : option bool :=
  loopX (S (iterations (xmin dom) (xmax dom))) A B dom (xmin dom).

Inductive Status : Type := binding | slack | violated.

Definition bindingStatus (p : Pt) (k : Constraint) : Status :=
  let s := a k * x p + b k * y p - c k in
  let tol := 1e-2 in
  let inside := insideHalfPlane p k in
  if negb inside then violated
  else if Qle_bool (Qabs s) tol then binding
  else slack.

(** [LEVELS[0]]: its domain and its two target constraints,
    [2x + y <= 12] (budget) and [x >= 2] (security). *)
Definition level1_dom : Domain2D := mkDomain 0 12 0 12.
Definition budget : Constraint := mkConstraint 2 1 12 CLe.
Definition security : Constraint := mkConstraint 1 0 2 CGe.
Definition level1_target : list Constraint := [budget; security].

(** The walk as the specification words it, for comparison with [clipWalk]:
    for each edge [(S -> E)] the inside test of [S] is the one of that edge's
    own start vertex. *)
Definition edgeRuleStep (k : Constraint) (st : list Pt * Pt) (E : Pt) : list Pt * Pt :=
  let out := fst st in
  let S_ := snd st in
  let S_in := insideHalfPlane S_ k in
  let E_in := insideHalfPlane E k in
  let out' :=
    if E_in then
      (if negb S_in then out ++ [intersectLineSegWithLine S_ E k] else out) ++ [E]
    else if S_in then out ++ [intersectLineSegWithLine S_ E k]
    else out in
  (out', E).

Definition edgeRuleWalk (poly : list Pt) (k : Constraint) : list Pt :=
  match poly with
  | [] => []
  | p0 :: _ => fst (fold_left (edgeRuleStep k) poly ([], last poly p0))
  end.

(** Coordinate-wise equality of points and of polygons. *)
Definition pt_eq (p q : Pt) : Prop := x p == x q /\ y p == y q.
Definition poly_eq (l1 l2 : list Pt) : Prop := Forall2 pt_eq l1 l2.

Definition pt_eqb (p q : Pt) : bool := Qeq_bool (x p) (x q) && Qeq_bool (y p) (y q).
Fixpoint poly_eqb (l1 l2 : list Pt) : bool :=
  match l1, l2 with
  | [], [] => true
  | p :: l1', q :: l2' => pt_eqb p q && poly_eqb l1' l2'
  | _, _ => false
  end.

(** *** Notions used by the statements *)

(** The exact comparison [a*x + b*y comp c], without tolerance. *)
Definition satisfiesExactly (p : Pt) (k : Constraint) : Prop :=
  let s := a k * x p + b k * y p in
  match comp k with
  | CLe => s <= c k
  | CLt => s < c k
  | CGe => s >= c k
  | CGt => s > c k
  end.

(** The sum of [cross] over the consecutive pairs of an open vertex chain. *)
Fixpoint chain (l : list Pt) : Q :=
  match l with
  | p :: ((q :: _) as t) => cross p q + chain t
  | _ => 0
  end.

(** The signed shoelace sum over the implicitly closed vertex sequence: the
    chain that returns to its first vertex. *)
Definition closedSum (poly : list Pt) : Q :=
  chain (poly ++ [hd (mkPt 0 0) poly]).

(** Cyclic rotation of the vertex list by [k] places. *)
Definition rotate (k : nat) (poly : list Pt) : list Pt :=
  skipn (k mod length poly) poly ++ firstn (k mod length poly) poly.

(** The sum of [f] over a list of indices. *)
Fixpoint sumQ (f : nat -> Q) (l : list nat) : Q :=
  match l with
  | [] => 0
  | i :: l' => f i + sumQ f l'
  end.

(** [v] and [w] are at Euclidean distance at most [1e-6]: the cleanup loop
    would not keep one right after the other. *)
Definition nearb (v w : Pt) : bool :=
  negb (hypot_gtb (x v - x w) (y v - y w) 1e-6).

(** No vertex is within [1e-6] of its predecessor in the list. *)
Fixpoint spaced (l : list Pt) : bool :=
  match l with
  | p :: ((q :: _) as t) => negb (nearb q p) && spaced t
  | _ => true
  end.

(** [Subseq l1 l2]: [l1] is [l2] with some vertices left out, the others in
    their order. *)
Inductive Subseq : list Pt -> list Pt -> Prop :=
| Subseq_nil : Subseq [] []
| Subseq_keep (p : Pt) (l1 l2 : list Pt) : Subseq l1 l2 -> Subseq (p :: l1) (p :: l2)
| Subseq_drop (p : Pt) (l1 l2 : list Pt) : Subseq l1 l2 -> Subseq l1 (p :: l2).

(** *** The other helpers of src/FeasibleZone.tsx *)

(** [k.comp !== "<"] *)
Definition notLt (cmp : Comparator) : bool :=
  match cmp with CLt => false | _ => true end.

(** The body of the [map] of [tweak], at index [i]. *)
Definition tweakOne (i : nat) (k : Constraint) : Constraint :=
  mkConstraint (a k) (b k)
    (inject_Z (jsRound ((c k + (if (i mod 2 =? 0)%nat then 1 else -1)) * 2)) / 2)
    (if (i =? 0)%nat && notLt (comp k)
     then match comp k with CLe => CLt | other => other end
     else comp k).

Definition tweak (constraints : list Constraint) : list Constraint :=
  mapi tweakOne 0 constraints.

(** The coordinate maps of [Board]; [w] and [h] are the measured size of the
    board ([size.w], [size.h]). *)
Definition pad : Q := 24.
Definition boardW (w : Q) : Q := jsMax 320 w.
Definition boardH (h : Q) : Q := jsMax 300 h.

Definition sx (dom : Domain2D) (w : Q) (vx : Q) : Q :=
  pad + ((vx - xmin dom) / (xmax dom - xmin dom)) * (boardW w - 2 * pad).
Definition sy (dom : Domain2D) (h : Q) (vy : Q) : Q :=
  boardH h - pad - ((vy - ymin dom) / (ymax dom - ymin dom)) * (boardH h - 2 * pad).
Definition ux (dom : Domain2D) (w : Q) (px : Q) : Q :=
  xmin dom + ((px - pad) / (boardW w - 2 * pad)) * (xmax dom - xmin dom).
Definition uy (dom : Domain2D) (h : Q) (py : Q) : Q :=
  ymin dom + (((boardH h - pad) - py) / (boardH h - 2 * pad)) * (ymax dom - ymin dom).

(** *** Further notions used by the statements *)

(** [v] lies on the boundary line [a*x + b*y = c] of [k]. *)
Definition onBoundary (k : Constraint) (v : Pt) : Prop :=
  a k * x v + b k * y v == c k.

(** [every k] used on a lattice point by [systemsEquivalent]. *)
Definition every (A : list Constraint) (p : Pt) : bool :=
  forallb (fun k => insideHalfPlane p k) A.

(** The two systems accept, or reject, the point [(px, py)] alike. *)
Definition agreeAt (A B : list Constraint) (px py : Q) : Prop :=
  every A (mkPt px py) = every B (mkPt px py).

(** The [i]-th value taken by the variable of
    [for (v = lo; ...; v += step)]. *)
Definition latticeAt (lo : Q) (i : nat) : Q := Nat.iter i (fun v => v + step) lo.

(** The residual [a*x + b*y - c] of [bindingStatus]. *)
Definition residual (p : Pt) (k : Constraint) : Q :=
  a k * x p + b k * y p - c k.

(** The polygon moved by the vector [(dx, dy)]. *)
Definition translate (dx dy : Q) (poly : list Pt) : list Pt :=
  map (fun p => mkPt (x p + dx) (y p + dy)) poly.

End FeasibleZone.

(** ** src/HalfPlaneHero.tsx: the rectangle clipper

    [src/types.ts] holds the same functions, character for character up to
    spacing. *)
Module HalfPlaneHeroClip.
Local Open Scope Q_scope.

Record Domain2D : Type :=
  mkDomain { xmin : Q; xmax : Q; ymin : Q; ymax : Q; step : Q }.

Record Inequality : Type := mkInequality { a : Q; b : Q; c : Q; comp : Comparator }.

Record Pt : Type := mkPt { x : Q; y : Q }.

Definition insideHalfPlane (px py : Q) (ineq : Inequality) : bool :=
  let s := a ineq * px + b ineq * py in
  match comp ineq with
  | CLe => Qle_bool s (c ineq + 1e-9)
  | CLt => Qltb s (c ineq - 1e-9)
  | CGe => Qle_bool (c ineq - 1e-9) s
  | CGt => Qltb (c ineq + 1e-9) s
  end.

(** The closure [inside] of [clipRectByHalfPlane]. *)
Definition inside (ineq : Inequality) (p : Pt) : bool :=
  insideHalfPlane (x p) (y p) ineq.

(** The closure [inter] of [clipRectByHalfPlane]. *)
Definition inter (ineq : Inequality) (p q : Pt) : Pt :=
  let dx := x q - x p in
  let dy := y q - y p in
  let den := a ineq * dx + b ineq * dy in
  if Qltb (Qabs den) 1e-9 then q
  else
    let t := (c ineq - (a ineq * x p + b ineq * y p)) / den in
    mkPt (x p + t * dx) (y p + t * dy).

(** One iteration of the loop; the state is [(out, S)].  Here [Sin] is
    computed inside the loop, from the current [S]. *)
Definition rectStep (ineq : Inequality) (st : list Pt * Pt) (E : Pt) : list Pt * Pt :=
  let out := fst st in
  let S_ := snd st in
  let Sin := inside ineq S_ in
  let Ein := inside ineq E in
  let out' :=
    if Ein then (if negb Sin then out ++ [inter ineq S_ E] else out) ++ [E]
    else if Sin then out ++ [inter ineq S_ E]
    else out in
  (out', E).

Definition clipRectByHalfPlane (dom : Domain2D) (ineq : Inequality) : list Pt :=
  let poly :=
    [ mkPt (xmin dom) (ymin dom); mkPt (xmax dom) (ymin dom);
      mkPt (xmax dom) (ymax dom); mkPt (xmin dom) (ymax dom) ] in
  let S_ := mkPt (xmin dom) (ymax dom) in
  fst (fold_left (rectStep ineq) poly ([], S_)).

(** *** Notions used by the statements *)

(** The four corners, in the order of [poly]. *)
Definition corners (dom : Domain2D) : list Pt :=
  [ mkPt (xmin dom) (ymin dom); mkPt (xmax dom) (ymin dom);
    mkPt (xmax dom) (ymax dom); mkPt (xmin dom) (ymax dom) ].

(** [v] lies on the boundary line [a*x + b*y = c]. *)
Definition onBoundary (ineq : Inequality) (v : Pt) : Prop :=
  a ineq * x v + b ineq * y v == c ineq.

End HalfPlaneHeroClip.

(** ** src/HalfPlaneHero.tsx: line canonicalisation

    [src/types.ts] holds the same two functions. *)
Module HalfPlaneHero.
Local Open Scope R_scope.

Record Pt : Type := mkPt { x : R; y : R }.

(** The object type [{a: number; b: number; c: number}]. *)
Record Line : Type := mkLine { a : R; b : R; c : R }.

Definition EPS : R := 1e-6.

Definition lineFromPoints (p1 p2 : Pt) : Line :=
  let dx := x p2 - x p1 in
  let dy := y p2 - y p1 in
  let a0 := dy in
  let b0 := - dx in
  let n := orElse (hypot a0 b0) 1 in
  let a1 := a0 / n in
  let b1 := b0 / n in
  let flip := if Rltb (Rabs a1) EPS then Rltb b1 0 else Rltb a1 0 in
  let a2 := if flip then - a1 else a1 in
  let b2 := if flip then - b1 else b1 in
  let c2 := a2 * x p1 + b2 * y p1 in
  mkLine a2 b2 c2.

(** The closure [fix] of [sameLine]. *)
Definition fix_ (fa fb fc : R) : Line :=
  if Rltb (Rabs fa) EPS then
    (if Rltb fb 0 then mkLine (- fa) (- fb) (- fc) else mkLine fa fb fc)
  else
    (if Rltb fa 0 then mkLine (- fa) (- fb) (- fc) else mkLine fa fb fc).

Definition sameLine (u v : Line) : bool :=
  let nu := orElse (hypot (a u) (b u)) 1 in
  let nv := orElse (hypot (a v) (b v)) 1 in
  let u' := fix_ (a u / nu) (b u / nu) (c u / nu) in
  let v' := fix_ (a v / nv) (b v / nv) (c v / nv) in
  Rltb (Rabs (a u' - a v')) 1e-2
  && Rltb (Rabs (b u' - b v')) 1e-2
  && Rltb (Rabs (c u' - c v')) 1e-2.

(** *** The other geometry helpers of src/HalfPlaneHero.tsx *)

Record Domain2D : Type :=
  mkDomain { xmin : R; xmax : R; ymin : R; ymax : R; step : R }.

Definition clamp (v lo hi : R) : R := Rmax lo (Rmin hi v).

(** The result of [intercepts]; [None] stands for [undefined]. *)
Record Intercepts : Type := mkIntercepts { xi : option R; yi : option R }.

Definition intercepts (fa fb fc : R) : Intercepts :=
  mkIntercepts
    (if Rltb (Rabs fa) 1e-9 then None else Some (fc / fa))
    (if Rltb (Rabs fb) 1e-9 then None else Some (fc / fb)).

(** The [targetLine] memo of the [HalfPlaneHero] component, for the target
    inequality [ta*x + tb*y comp tc] of the level. *)
Definition targetLine (dom : Domain2D) (ta tb tc : R) : Line :=
  let i := intercepts ta tb tc in
  let A := match xi i with
           | Some v => mkPt (clamp v (xmin dom) (xmax dom)) 0
           | None => mkPt 0 (tc / orElse tb 1)
           end in
  let B := match yi i with
           | Some v => mkPt 0 (clamp v (ymin dom) (ymax dom))
           | None => mkPt 1 ((tc - ta) / orElse tb 1)
           end in
  lineFromPoints A B.

(** The four [edges] of [boundarySegment]. *)
Definition edgesOf (dom : Domain2D) : list (Pt * Pt) :=
  [ (mkPt (xmin dom) (ymin dom), mkPt (xmin dom) (ymax dom));
    (mkPt (xmax dom) (ymin dom), mkPt (xmax dom) (ymax dom));
    (mkPt (xmin dom) (ymin dom), mkPt (xmax dom) (ymin dom));
    (mkPt (xmin dom) (ymax dom), mkPt (xmax dom) (ymax dom)) ].

(** The body of [edges.forEach]: what one edge adds to [pts]. *)
Definition hitEdge (dom : Domain2D) (line : Line) (pts : list Pt) (e : Pt * Pt)
    : list Pt :=
  let p := fst e in
  let q := snd e in
  let dx := x q - x p in
  let dy := y q - y p in
  let den := a line * dx + b line * dy in
  if Rltb (Rabs den) 1e-9 then pts
  else
    let t := (c line - (a line * x p + b line * y p)) / den in
    if Rleb (- 1e-6) t && Rleb t (1 + 1e-6) then
      let X := mkPt (x p + t * dx) (y p + t * dy) in
      if Rleb (xmin dom - 1e-6) (x X) && Rleb (x X) (xmax dom + 1e-6)
         && Rleb (ymin dom - 1e-6) (y X) && Rleb (y X) (ymax dom + 1e-6)
      then pts ++ [X]
      else pts
    else pts.

(** The list [pts] of [boundarySegment]. *)
Definition hits (dom : Domain2D) (line : Line) : list Pt :=
  fold_left (hitEdge dom line) (edgesOf dom) [].

(** The body of the double loop; the state is [(best, d)]. *)
Definition farther (pts : list Pt) (st : (Pt * Pt) * R) (i j : nat)
    : (Pt * Pt) * R :=
  let pi := nth i pts (mkPt 0 0) in
  let pj := nth j pts (mkPt 0 0) in
  let dd := hypot (x pi - x pj) (y pi - y pj) in
  if Rltb (snd st) dd then ((pi, pj), dd) else st.

(** [for (let j = i + 1; j < pts.length; j++)] *)
Definition innerLoop (pts : list Pt) (st : (Pt * Pt) * R) (i : nat)
    : (Pt * Pt) * R :=
  fold_left (fun st' j => farther pts st' i j)
            (seq (i + 1) (length pts - (i + 1))) st.

(** [null] is [None]. *)
Definition boundarySegment (dom : Domain2D) (line : Line) : option (Pt * Pt) :=
  let pts := hits dom line in
  if (length pts <? 2)%nat then None
  else
    let best0 := (nth 0 pts (mkPt 0 0), nth 1 pts (mkPt 0 0)) in
    let st := fold_left (innerLoop pts) (seq 0 (length pts)) (best0, 0) in
    Some (fst st).

(** *** Notions used by the statements *)

(** [p] lies on the line [a*x + b*y = c]. *)
Definition onLine (u : Line) (p : Pt) : Prop := a u * x p + b u * y p = c u.

(** The Euclidean distance of two points. *)
Definition dist (p q : Pt) : R := hypot (x p - x q) (y p - y q).

(** [p] is in the domain rectangle widened by [1e-6] on each side. *)
Definition inWidened (dom : Domain2D) (p : Pt) : Prop :=
  xmin dom - 1e-6 <= x p <= xmax dom + 1e-6
  /\ ymin dom - 1e-6 <= y p <= ymax dom + 1e-6.

(** The normalised, sign-fixed triple that [sameLine] computes for each of
    its arguments. *)
Definition normalised (u : Line) : Line :=
  let nu := orElse (hypot (a u) (b u)) 1 in
  fix_ (a u / nu) (b u / nu) (c u / nu).

(** [(a, b)] is a unit vector. *)
Definition unitNormal (u : Line) : Prop := a u * a u + b u * b u = 1.

(** The triple [(k*a, k*b, k*c)], which describes the same line for [k <> 0]. *)
Definition scaleLine (k : R) (u : Line) : Line := mkLine (k * a u) (k * b u) (k * c u).

(** The sign rule of [lineFromPoints]: whether [(a, b)] is negated. *)
Definition flips (fa fb : R) : bool :=
  if Rltb (Rabs fa) EPS then Rltb fb 0 else Rltb fa 0.

End HalfPlaneHero.

(** ** src/HalfPlaneHero.tsx: the number-line helpers of the absolute-value
    game *)
Module SafetyBubble.
Local Open Scope Q_scope.

(** [Domain]; the optional [format] callback is left out. *)
Record Domain : Type := mkDomain { min : Q; max : Q; step : Q }.

Definition snap (v s : Q) : Q := inject_Z (jsRound (v / s)) * s.

Definition scaleX (value : Q) (domain : Domain) (px0 px1 : Q) : Q :=
  let t := (value - min domain) / (max domain - min domain) in
  px0 + t * (px1 - px0).

Definition unscaleX (px : Q) (domain : Domain) (px0 px1 : Q) : Q :=
  let span := QorElse (px1 - px0) 1 in
  let t := (px - px0) / span in
  min domain + t * (max domain - min domain).

Definition acceptAbs (v m r : Q) (comp : Comparator) : bool :=
  let d := Qabs (v - m) in
  match comp with
  | CLe => Qle_bool d (r + 1e-9)
  | CLt => Qltb d (r - 1e-9)
  | CGe => Qle_bool (r - 1e-9) d
  | CGt => Qltb (r + 1e-9) d
  end.

End SafetyBubble.

(** ** src/FeasibleZone.tsx: [polygonArea] on binary64 numbers

    The same function on the program's own numbers, IEEE 754 binary64 with
    every operation rounded to nearest, for the one place where a statement
    is about the exact value of a rounded sum. *)
Module FeasibleZoneFloat.
Import PrimFloat.
Local Open Scope float_scope.
#[local] Set Warnings "-inexact-float".

Record Pt : Type := mkPt { x : float; y : float }.

Definition polygonArea (poly : list Pt) : float :=
  if (length poly <? 3)%nat then 0
  else
    let s :=
      fold_left
        (fun s i =>
           let pa := nth i poly (mkPt 0 0) in
           let pb := nth ((i + 1) mod length poly) poly (mkPt 0 0) in
           s + (x pa * y pb - y pa * x pb))
        (seq 0 (length poly)) 0 in
    abs s / 2.

(** Cyclic rotation of the vertex list by [k] places. *)
Definition rotate (k : nat) (poly : list Pt) : list Pt :=
  skipn (k mod length poly) poly ++ firstn (k mod length poly) poly.


End FeasibleZoneFloat.

(** * Properties *)

(** ** Comparisons *)

Lemma Qltb_lt (u v : Q) : Qltb u v = true <-> (u < v)%Q.
Proof.
  unfold Qltb. rewrite negb_true_iff. split; intro H.
  - apply Qnot_le_lt. intro Hle. apply Qle_bool_iff in Hle. congruence.
  - destruct (Qle_bool v u) eqn:E; [|reflexivity].
    apply Qle_bool_iff in E. exfalso. exact (Qlt_not_le _ _ H E).
Qed.

Lemma Qltb_ge (u v : Q) : Qltb u v = false <-> (v <= u)%Q.
Proof.
  unfold Qltb. rewrite negb_false_iff. apply Qle_bool_iff.
Qed.

Lemma Rltb_lt (u v : R) : Rltb u v = true <-> (u < v)%R.
Proof.
  unfold Rltb. destruct (Rlt_dec u v); split; intro; try assumption;
    try reflexivity; try discriminate; contradiction.
Qed.

Lemma Rltb_ge (u v : R) : Rltb u v = false <-> (v <= u)%R.
Proof.
  unfold Rltb. destruct (Rlt_dec u v); split; intro; try discriminate;
    try reflexivity; lra.
Qed.

(** [hypot_gtb] decides the comparison of the real [Math.hypot] with [t]. *)
Lemma hypot_gtb_sqrt (u v t : Q) :
  hypot_gtb u v t = true <-> (Q2R t < hypot (Q2R u) (Q2R v))%R.
Proof.
  unfold hypot_gtb, hypot. rewrite orb_true_iff, !Qltb_lt.
  assert (Hsq : (0 <= Q2R u * Q2R u + Q2R v * Q2R v)%R) by nra.
  pose proof (sqrt_pos (Q2R u * Q2R u + Q2R v * Q2R v)) as Hpos.
  pose proof (sqrt_sqrt _ Hsq) as Hss.
  split.
  - intros [Hneg | Hlt].
    + apply Qlt_Rlt in Hneg. rewrite RMicromega.Q2R_0 in Hneg. lra.
    + apply Qlt_Rlt in Hlt. rewrite Q2R_plus, !Q2R_mult in Hlt.
      destruct (Rlt_dec (Q2R t) 0) as [Ht | Ht]; [lra|].
      apply Rnot_le_lt. intro Hle. nra.
  - intro H.
    destruct (Qlt_le_dec t 0) as [Ht | Ht]; [left; exact Ht | right].
    apply Rlt_Qlt. rewrite Q2R_plus, !Q2R_mult.
    apply Qle_Rle in Ht. rewrite RMicromega.Q2R_0 in Ht. nra.
Qed.

(** [Math.round] is within one half of its argument. *)
Lemma jsRound_bounds (q : Q) :
  (q - 0.5 < inject_Z (jsRound q) /\ inject_Z (jsRound q) <= q + 0.5)%Q.
Proof.
  unfold jsRound.
  pose proof (Qfloor_le (q + 0.5)) as H1.
  pose proof (Qlt_floor (q + 0.5)) as H2.
  rewrite inject_Z_plus in H2. change (inject_Z 1) with 1 in H2.
  split; lra.
Qed.

Module FeasibleZoneFacts.
Import FeasibleZone.
Local Open Scope Q_scope.

Lemma pt_eqb_eq (p q : Pt) : pt_eqb p q = true -> pt_eq p q.
Proof.
  unfold pt_eqb, pt_eq. rewrite andb_true_iff, !Qeq_bool_iff. tauto.
Qed.

Lemma poly_eqb_eq (l1 l2 : list Pt) : poly_eqb l1 l2 = true -> poly_eq l1 l2.
Proof.
  revert l2. induction l1 as [|p l1 IH]; intros [|q l2] H; simpl in H;
    try discriminate.
  - constructor.
  - apply andb_true_iff in H. destruct H as [Hp Hl].
    constructor; [apply pt_eqb_eq; exact Hp | apply IH; exact Hl].
Qed.

(** C4: [insideHalfPlane] compares [s = a*x + b*y] with [c] as its
    comparator says, with the tolerance [1e-9]: [s <= c + eps] for [<=],
    [s < c - eps] for [<], [s >= c - eps] for [>=], [s > c + eps] for [>].
    For [2x + y <= 12] the point [(0,0)] is accepted, [(6,0)] is accepted and
    classified binding, and [(7,0)] is rejected. *)
Theorem insideHalfPlane_tolerance :
  (forall (p : Pt) (k : Constraint),
     let s := a k * x p + b k * y p in
     insideHalfPlane p k = true <->
     match comp k with
     | CLe => s <= c k + 1e-9
     | CLt => s < c k - 1e-9
     | CGe => s >= c k - 1e-9
     | CGt => s > c k + 1e-9
     end)
  /\ insideHalfPlane (mkPt 0 0) budget = true
  /\ insideHalfPlane (mkPt 6 0) budget = true
  /\ bindingStatus (mkPt 6 0) budget = binding
  /\ insideHalfPlane (mkPt 7 0) budget = false.
Proof.
  split; [|repeat split; reflexivity].
  intros p k s. unfold insideHalfPlane. fold s.
  destruct (comp k).
  - apply Qle_bool_iff.
  - apply Qltb_lt.
  - apply Qle_bool_iff.
  - apply Qltb_lt.
Qed.

(** C5, as stated, fails: the point [(1 - 5e-10, 0)] satisfies [x < 1]
    exactly and is rejected. *)
Lemma tolerance_loosens_counterexample :
  ~ (forall (p : Pt) (k : Constraint),
       satisfiesExactly p k -> insideHalfPlane p k = true).
Proof.
  intro H.
  specialize (H (mkPt (1 - 5e-10) 0) (mkConstraint 1 0 1 CLt)).
  assert (Hex : satisfiesExactly (mkPt (1 - 5e-10) 0) (mkConstraint 1 0 1 CLt))
    by (unfold satisfiesExactly; simpl; reflexivity).
  specialize (H Hex). vm_compute in H. discriminate.
Qed.

(** C5, amended: the tolerance loosens the non-strict comparators and
    tightens the strict ones.  For [<=] and [>=], a point that satisfies the
    comparison exactly is accepted; for [<] and [>], an accepted point
    satisfies the comparison exactly, and a point is accepted exactly when it
    clears the boundary by more than [1e-9]. *)
Theorem tolerance_direction (p : Pt) (k : Constraint) :
  match comp k with
  | CLe | CGe => satisfiesExactly p k -> insideHalfPlane p k = true
  | CLt => (insideHalfPlane p k = true -> satisfiesExactly p k)
           /\ (insideHalfPlane p k = true <-> a k * x p + b k * y p < c k - 1e-9)
  | CGt => (insideHalfPlane p k = true -> satisfiesExactly p k)
           /\ (insideHalfPlane p k = true <-> a k * x p + b k * y p > c k + 1e-9)
  end.
Proof.
  unfold satisfiesExactly, insideHalfPlane.
  destruct (comp k).
  - intro H. apply Qle_bool_iff.
    apply Qle_trans with (c k); [exact H|].
    rewrite <- (Qplus_0_r (c k)) at 1. apply Qplus_le_r. discriminate.
  - split; [|apply Qltb_lt].
    intro H. apply Qltb_lt in H.
    apply Qlt_le_trans with (c k - 1e-9); [exact H|].
    rewrite <- (Qplus_0_r (c k)) at 2. apply Qplus_le_r. discriminate.
  - intro H. apply Qle_bool_iff.
    apply Qle_trans with (c k); [|exact H].
    rewrite <- (Qplus_0_r (c k)) at 2. apply Qplus_le_r. discriminate.
  - split; [|apply Qltb_lt].
    intro H. apply Qltb_lt in H.
    apply Qle_lt_trans with (c k + 1e-9); [|exact H].
    rewrite <- (Qplus_0_r (c k)) at 1. apply Qplus_le_r. discriminate.
Qed.

Lemma tolerance_direction_witness :
  insideHalfPlane (mkPt 6 0) budget = true
  /\ satisfiesExactly (mkPt 3 0) (mkConstraint 1 0 2 CGt).
Proof.
  split.
  - apply (tolerance_direction (mkPt 6 0) budget).
    unfold satisfiesExactly; simpl. discriminate.
  - apply (tolerance_direction (mkPt 3 0) (mkConstraint 1 0 2 CGt)).
    reflexivity.
Defined.

(** *** The lattice loops of [systemsEquivalent] terminate *)

Lemma iterations_pos (lo hi : Q) : lo <= hi -> (0 < iterations lo hi)%nat.
Proof.
  intro H. unfold iterations.
  destruct (Qle_bool lo hi) eqn:E.
  - assert (H0 : (0 <= Qfloor ((hi - lo) / step))%Z).
    { rewrite <- (Qfloor_Z 0). apply Qfloor_resp_le. change (inject_Z 0) with 0.
      unfold step. apply Qle_shift_div_l; [reflexivity|]. lra. }
    lia.
  - apply Qle_bool_iff in H. congruence.
Qed.

Lemma iterations_step (lo hi : Q) :
  lo <= hi -> (S (iterations (lo + step) hi) <= iterations lo hi)%nat.
Proof.
  intro H. pose proof (iterations_pos lo hi H) as Hpos.
  unfold iterations in *.
  destruct (Qle_bool (lo + step) hi) eqn:E1; [|lia].
  destruct (Qle_bool lo hi) eqn:E2; [|lia].
  apply Qle_bool_iff in E1.
  assert (Hq : (hi - (lo + step)) / step == (hi - lo) / step - 1)
    by (unfold step; field).
  assert (H0 : (0 <= Qfloor ((hi - (lo + step)) / step))%Z).
  { rewrite <- (Qfloor_Z 0). apply Qfloor_resp_le. change (inject_Z 0) with 0.
    unfold step. apply Qle_shift_div_l; [reflexivity|]. unfold step in E1. lra. }
  assert (H1 : (Qfloor ((hi - (lo + step)) / step) + 1 <= Qfloor ((hi - lo) / step))%Z).
  { rewrite <- (Qfloor_Z (Qfloor ((hi - (lo + step)) / step) + 1)).
    apply Qfloor_resp_le. rewrite inject_Z_plus.
    pose proof (Qfloor_le ((hi - (lo + step)) / step)) as Hf.
    rewrite Hq in Hf at 2. change (inject_Z 1) with 1. lra. }
  lia.
Qed.

Section LatticeLoops.

Variables A B : list Constraint.

Lemma loopY_total (ymax_ px : Q) :
  forall (fuel : nat) (py : Q),
    (iterations py ymax_ < fuel)%nat ->
    exists r, loopY fuel A B ymax_ px py = Some r.
Proof.
  induction fuel as [|fuel IH]; intros py Hfuel; [lia|].
  cbn [loopY]. destruct (Qle_bool py ymax_) eqn:E; [|eexists; reflexivity].
  destruct (negb _); [eexists; reflexivity|].
  apply IH. apply Qle_bool_iff in E.
  pose proof (iterations_step py ymax_ E). lia.
Qed.

Lemma loopX_total (dom : Domain2D) :
  forall (fuel : nat) (px : Q),
    (iterations px (xmax dom) < fuel)%nat ->
    exists r, loopX fuel A B dom px = Some r.
Proof.
  induction fuel as [|fuel IH]; intros px Hfuel; [lia|].
  cbn [loopX]. destruct (Qle_bool px (xmax dom)) eqn:E; [|eexists; reflexivity].
  destruct (loopY_total (ymax dom) px (S (iterations (ymin dom) (ymax dom)))
              (ymin dom)) as [r Hr]; [lia|].
  rewrite Hr. destruct r; [|eexists; reflexivity].
  apply IH. apply Qle_bool_iff in E.
  pose proof (iterations_step px (xmax dom) E). lia.
Qed.

End LatticeLoops.

(** [systemsEquivalent] returns on every input: the fuel it gives its loops
    is never exhausted. *)
Lemma systemsEquivalent_total (dom : Domain2D) (A B : list Constraint) :
  exists r, systemsEquivalent dom A B = Some r.
Proof.
  unfold systemsEquivalent. apply loopX_total. lia.
Qed.

(** C6, as stated, fails: the lattice contains the column [x = 2], whose
    points satisfy [x >= 2] and not [x >= 2.0001], so the two systems are
    reported different. *)
Lemma lattice_blind_spot_counterexample :
  systemsEquivalent level1_dom [security] [mkConstraint 1 0 2.0001 CGe] = Some false.
Proof. vm_compute. reflexivity. Qed.

(** C6, amended: over the 0.5-step lattice on [[0,12] x [0,12]],
    [systemsEquivalent] reports [x >= 2] and [x >= 2.0001] as not equivalent,
    since the lattice point [(2,0)] satisfies the first and not the second.
    The blind spot of the method shows on the pair [x >= 2.0001] and
    [x >= 2.0002]: it is reported equivalent although the point
    [(2.00015, 0)] of the domain satisfies the first and not the second. *)
Theorem lattice_blind_spot :
  systemsEquivalent level1_dom [security] [mkConstraint 1 0 2.0001 CGe] = Some false
  /\ insideHalfPlane (mkPt 2 0) security = true
  /\ insideHalfPlane (mkPt 2 0) (mkConstraint 1 0 2.0001 CGe) = false
  /\ systemsEquivalent level1_dom
       [mkConstraint 1 0 2.0001 CGe] [mkConstraint 1 0 2.0002 CGe] = Some true
  /\ insideHalfPlane (mkPt 2.00015 0) (mkConstraint 1 0 2.0001 CGe) = true
  /\ insideHalfPlane (mkPt 2.00015 0) (mkConstraint 1 0 2.0002 CGe) = false.
Proof. repeat split; vm_compute; reflexivity. Qed.

(** *** The stale start status of [clipPolyByHalfPlane] *)

(** [clipRectByHalfPlane], the sibling clipper, on the same rectangle and
    constraint: it tests the start vertex of each edge and emits nothing for
    the edge [(12,0) -> (12,12)]. *)
Example clipRectByHalfPlane_level1 :
  map (fun p => (Qred (HalfPlaneHeroClip.x p), Qred (HalfPlaneHeroClip.y p)))
      (HalfPlaneHeroClip.clipRectByHalfPlane
         (HalfPlaneHeroClip.mkDomain 0 12 0 12 1)
         (HalfPlaneHeroClip.mkInequality 2 1 12 CLe))
  = [(0, 0); (6, 0); (0, 12); (0, 12)].
Proof. vm_compute. reflexivity. Qed.

(** The two level-1 constraints clipped with the rule of the specification
    (each edge tested on its own start vertex): the triangle of area 16. *)
Example edgeRule_level1 :
  let clip := fun poly k => cleanup (edgeRuleWalk poly k) in
  let poly := fold_left clip level1_target (initRect level1_dom) in
  poly_eq poly [mkPt 2 0; mkPt 6 0; mkPt 2 8] /\ polygonArea poly == 16.
Proof.
  split; [apply poly_eqb_eq|]; vm_compute; reflexivity.
Qed.

(** C1: evaluation at the failing input.  On the level-1 rectangle and
    [2x + y <= 12] the edge [(12,0) -> (12,12)] has both ends outside, and
    the walk of [clipPolyByHalfPlane] still emits a point for it, [(12,-12)]:
    the start status it uses is the one of the last vertex [(0,12)], computed
    once before the loop.  The walk that tests each edge's own start vertex
    emits nothing for that edge. *)
Theorem clipWalk_stale_start_status :
  let rect := initRect level1_dom in
  insideHalfPlane (mkPt 12 0) budget = false
  /\ insideHalfPlane (mkPt 12 12) budget = false
  /\ poly_eq (clipWalk rect budget) [mkPt 0 0; mkPt 6 0; mkPt 12 (-12); mkPt 0 12]
  /\ poly_eq (edgeRuleWalk rect budget) [mkPt 0 0; mkPt 6 0; mkPt 0 12; mkPt 0 12]
  /\ poly_eq (clipPolyByHalfPlane rect budget)
       [mkPt 0 0; mkPt 6 0; mkPt 12 (-12); mkPt 0 12].
Proof.
  repeat split; try (apply poly_eqb_eq); vm_compute; reflexivity.
Qed.

(** C2: evaluation at the failing input.  The two orders of the level-1
    constraints give a quadrilateral of area 24 and a two-point list of
    area 0. *)
Theorem feasiblePolygon_order_dependent :
  poly_eq (feasiblePolygon level1_dom [budget; security])
    [mkPt 2 0; mkPt 6 0; mkPt 2 8; mkPt 12 (-12)]
  /\ poly_eq (feasiblePolygon level1_dom [security; budget])
       [mkPt 4.5 3; mkPt 2 0]
  /\ polygonArea (feasiblePolygon level1_dom [budget; security]) == 24
  /\ polygonArea (feasiblePolygon level1_dom [security; budget]) == 0.
Proof.
  repeat split; try (apply poly_eqb_eq); vm_compute; reflexivity.
Qed.

(** C3: evaluation at the failing input.  For the level-1 domain and
    [[2x + y <= 12; x >= 2]], [feasiblePolygon] returns four vertices, the
    fourth being [(12,-12)], and [polygonArea] of them is 24. *)
Theorem level1_feasiblePolygon :
  poly_eq (feasiblePolygon level1_dom level1_target)
    [mkPt 2 0; mkPt 6 0; mkPt 2 8; mkPt 12 (-12)]
  /\ polygonArea (feasiblePolygon level1_dom level1_target) == 24.
Proof.
  split; [apply poly_eqb_eq|]; vm_compute; reflexivity.
Qed.

(** *** The shoelace sum *)

Lemma fold_left_sumQ (f : nat -> Q) (l : list nat) (s0 : Q) :
  fold_left (fun s i => s + f i) l s0 == s0 + sumQ f l.
Proof.
  revert s0. induction l as [|i l IH]; intro s0; simpl.
  - ring.
  - rewrite IH. ring.
Qed.

Lemma sumQ_ext (f g : nat -> Q) (l : list nat) :
  (forall i, In i l -> f i == g i) -> sumQ f l == sumQ g l.
Proof.
  induction l as [|i l IH]; intro H; simpl.
  - reflexivity.
  - rewrite (H i (or_introl eq_refl)), IH; [reflexivity|].
    intros j Hj. apply H. right. exact Hj.
Qed.

Lemma sumQ_shift (f : nat -> Q) (n : nat) :
  sumQ f (seq 1 n) == sumQ (fun i => f (S i)) (seq 0 n).
Proof.
  rewrite <- seq_shift. generalize (seq 0 n) as l.
  induction l as [|i l IH]; simpl; [reflexivity|].
  rewrite IH. reflexivity.
Qed.

Lemma chain_cons2 (p q : Pt) (l : list Pt) :
  chain (p :: q :: l) = cross p q + chain (q :: l).
Proof. reflexivity. Qed.

(** The index loop over an open chain sums the chain. *)
Lemma sumQ_chain (d : Pt) (m : list Pt) :
  sumQ (fun i => cross (nth i m d) (nth (S i) m d)) (seq 0 (length m - 1))
  == chain m.
Proof.
  induction m as [|p m IH]; [reflexivity|].
  destruct m as [|q m]; [reflexivity|].
  rewrite chain_cons2, <- IH.
  replace (length (p :: q :: m) - 1)%nat with (S (length (q :: m) - 1))
    by (simpl; lia).
  cbn [seq sumQ]. rewrite sumQ_shift. reflexivity.
Qed.

(** The loop of [polygonArea] computes the closed shoelace sum. *)
Lemma shoelace_closedSum (poly : list Pt) : shoelace poly == closedSum poly.
Proof.
  unfold shoelace, closedSum. rewrite fold_left_sumQ, Qplus_0_l.
  destruct poly as [|p0 poly]; [reflexivity|].
  set (l := p0 :: poly). set (d := mkPt 0 0).
  rewrite <- (sumQ_chain d (l ++ [hd d l])).
  replace (length (l ++ [hd d l]) - 1)%nat with (length l)
    by (rewrite length_app; simpl; lia).
  apply sumQ_ext. intros i Hi. apply in_seq in Hi.
  assert (Hlen : (i < length l)%nat) by lia.
  rewrite (app_nth1 l [hd d l] d Hlen).
  destruct (Nat.eq_dec (S i) (length l)) as [Heq | Hne].
  - replace (i + 1)%nat with (length l) by lia.
    rewrite Nat.Div0.mod_same, Heq, app_nth2, Nat.sub_diag by lia.
    reflexivity.
  - rewrite Nat.mod_small by lia.
    replace (i + 1)%nat with (S i) by lia.
    rewrite (app_nth1 l [hd d l] d) by lia. reflexivity.
Qed.

Lemma chain_app (l1 l2 : list Pt) (p : Pt) :
  chain (l1 ++ p :: l2) == chain (l1 ++ [p]) + chain (p :: l2).
Proof.
  induction l1 as [|q l1 IH].
  - simpl. ring.
  - destruct l1 as [|r l1].
    + simpl. ring.
    + change (chain (q :: r :: (l1 ++ p :: l2))
              == chain (q :: r :: (l1 ++ [p])) + chain (p :: l2)).
      rewrite !chain_cons2. change (r :: l1 ++ p :: l2) with ((r :: l1) ++ p :: l2).
      rewrite IH. simpl app. ring.
Qed.

Lemma closedSum_swap (l1 l2 : list Pt) :
  closedSum (l1 ++ l2) == closedSum (l2 ++ l1).
Proof.
  destruct l1 as [|p1 t1]; [rewrite app_nil_r; reflexivity|].
  destruct l2 as [|p2 t2]; [rewrite app_nil_r; reflexivity|].
  unfold closedSum. simpl hd.
  rewrite <- !app_assoc.
  change ((p2 :: t2) ++ [p1]) with (p2 :: (t2 ++ [p1])).
  change ((p1 :: t1) ++ [p2]) with (p1 :: (t1 ++ [p2])).
  rewrite (chain_app (p1 :: t1) (t2 ++ [p1]) p2).
  rewrite (chain_app (p2 :: t2) (t1 ++ [p2]) p1).
  simpl app. ring.
Qed.






(** *** Clipping a polygon that already satisfies the constraint *)

Lemma lastOpt_snoc (l : list Pt) (p : Pt) : lastOpt (l ++ [p]) = Some p.
Proof.
  unfold lastOpt. destruct (l ++ [p]) eqn:E.
  - destruct l; discriminate.
  - rewrite <- E. rewrite last_last. reflexivity.
Qed.

Lemma last_In (l : list Pt) (d : Pt) : l <> [] -> In (last l d) l.
Proof.
  induction l as [|q l IH]; intro H; [contradiction|].
  destruct l as [|r l].
  - left. reflexivity.
  - right. apply IH. discriminate.
Qed.

Lemma lastOpt_In (l : list Pt) (p : Pt) : lastOpt l = Some p -> In p l.
Proof.
  destruct l as [|q l]; [discriminate|].
  intro H.
  assert (Hp : p = last (q :: l) q) by (unfold lastOpt in H; congruence).
  rewrite Hp. apply last_In. discriminate.
Qed.

Lemma nearb_refl (v : Pt) : nearb v v = true.
Proof.
  unfold nearb, hypot_gtb. rewrite negb_true_iff, orb_false_iff. split.
  - reflexivity.
  - apply Qltb_ge.
    assert (H0 : (x v - x v) * (x v - x v) + (y v - y v) * (y v - y v) == 0)
      by ring.
    rewrite H0. apply Qle_bool_iff. reflexivity.
Qed.

(** With every vertex inside, the walk pushes each vertex and nothing else. *)
Lemma clipStep_all_inside (k : Constraint) :
  forall (l out : list Pt) (s : Pt),
    forallb (fun p => insideHalfPlane p k) l = true ->
    fst (fold_left (clipStep k true) l (out, s)) = out ++ l.
Proof.
  induction l as [|E l IH]; intros out s H.
  - simpl. rewrite app_nil_r. reflexivity.
  - simpl in H. apply andb_true_iff in H. destruct H as [HE Hl].
    cbn [fold_left]. unfold clipStep at 2. rewrite HE. cbn [negb fst snd].
    rewrite IH by exact Hl. rewrite <- app_assoc. reflexivity.
Qed.

Lemma clipWalk_all_inside (poly : list Pt) (k : Constraint) :
  forallb (fun p => insideHalfPlane p k) poly = true ->
  clipWalk poly k = poly.
Proof.
  intro H. destruct poly as [|p0 t]; [reflexivity|].
  unfold clipWalk.
  assert (Hlast : insideHalfPlane (last (p0 :: t) p0) k = true).
  { rewrite forallb_forall in H. apply H. apply last_In. discriminate. }
  rewrite Hlast, clipStep_all_inside by exact H. reflexivity.
Qed.

(** The cleanup loop keeps a subsequence, and each vertex it leaves out is
    within [1e-6] of a vertex it kept. *)
Lemma cleanup_loop (l : list Pt) :
  forall acc : list Pt,
  exists r : list Pt,
    fold_left cleanStep l acc = acc ++ r
    /\ Subseq r l
    /\ (forall v, In v l -> exists w, In w (acc ++ r) /\ nearb v w = true).
Proof.
  induction l as [|p l IH]; intro acc.
  - exists []. rewrite app_nil_r. repeat split.
    + constructor.
    + intros v [].
  - cbn [fold_left]. unfold cleanStep at 2.
    destruct (lastOpt acc) as [l0|] eqn:Elast.
    + destruct (hypot_gtb (x p - x l0) (y p - y l0) 1e-6) eqn:Efar.
      * destruct (IH (acc ++ [p])) as (r & Hr & Hsub & Hcov).
        exists (p :: r). rewrite Hr, <- app_assoc. repeat split.
        -- constructor. exact Hsub.
        -- intros v [<- | Hv].
           ++ exists p. split; [|apply nearb_refl].
              apply in_or_app. right. left. reflexivity.
           ++ destruct (Hcov v Hv) as (w & Hw & Hnear).
              exists w. rewrite <- app_assoc in Hw. split; assumption.
      * destruct (IH acc) as (r & Hr & Hsub & Hcov).
        exists r. rewrite Hr. repeat split.
        -- constructor. exact Hsub.
        -- intros v [<- | Hv].
           ++ exists l0. split.
              ** apply in_or_app. left. apply lastOpt_In. exact Elast.
              ** unfold nearb. rewrite Efar. reflexivity.
           ++ apply Hcov. exact Hv.
    + destruct (IH (acc ++ [p])) as (r & Hr & Hsub & Hcov).
      exists (p :: r). rewrite Hr, <- app_assoc. repeat split.
      * constructor. exact Hsub.
      * intros v [<- | Hv].
        -- exists p. split; [|apply nearb_refl].
           apply in_or_app. right. left. reflexivity.
        -- destruct (Hcov v Hv) as (w & Hw & Hnear).
           exists w. rewrite <- app_assoc in Hw. split; assumption.
Qed.

Lemma cleanup_spaced_from (l : list Pt) :
  forall (acc : list Pt) (p0 : Pt),
    lastOpt acc = Some p0 -> spaced (p0 :: l) = true ->
    fold_left cleanStep l acc = acc ++ l.
Proof.
  induction l as [|p l IH]; intros acc p0 Hlast Hsp.
  - simpl. rewrite app_nil_r. reflexivity.
  - cbn [spaced] in Hsp. apply andb_true_iff in Hsp. destruct Hsp as [Hfar Hsp].
    cbn [fold_left]. unfold cleanStep at 2. rewrite Hlast.
    unfold nearb in Hfar. rewrite negb_involutive in Hfar. rewrite Hfar.
    rewrite (IH (acc ++ [p]) p (lastOpt_snoc acc p) Hsp), <- app_assoc.
    reflexivity.
Qed.

Lemma cleanup_spaced (l : list Pt) : spaced l = true -> cleanup l = l.
Proof.
  intro Hsp. destruct l as [|p l]; [reflexivity|].
  unfold cleanup. cbn [fold_left]. unfold cleanStep at 2. cbn [lastOpt app].
  apply (cleanup_spaced_from l [p] p); [reflexivity | exact Hsp].
Qed.

(** C8: clipping a polygon whose vertices all satisfy the constraint gives
    the polygon back up to the cleanup tolerance: the result is the cleanup
    of the input, it keeps a subsequence of the vertices in their order,
    every vertex of the input is within [1e-6] of a vertex of the result, and
    the result is the input itself when no vertex is within [1e-6] of its
    predecessor. *)
Theorem clip_feasible_polygon (poly : list Pt) (k : Constraint) :
  forallb (fun p => insideHalfPlane p k) poly = true ->
  clipPolyByHalfPlane poly k = cleanup poly
  /\ Subseq (clipPolyByHalfPlane poly k) poly
  /\ (forall v, In v poly ->
        exists w, In w (clipPolyByHalfPlane poly k) /\ nearb v w = true)
  /\ (spaced poly = true -> clipPolyByHalfPlane poly k = poly).
Proof.
  intro H.
  assert (Hclip : clipPolyByHalfPlane poly k = cleanup poly).
  { unfold clipPolyByHalfPlane. destruct poly as [|p0 t]; [reflexivity|].
    rewrite clipWalk_all_inside by exact H. reflexivity. }
  rewrite Hclip. split; [reflexivity|].
  destruct (cleanup_loop poly []) as (r & Hr & Hsub & Hcov).
  unfold cleanup. rewrite Hr. cbn [app] in *.
  repeat split.
  - exact Hsub.
  - exact Hcov.
  - intro Hsp. rewrite <- Hr. apply cleanup_spaced. exact Hsp.
Qed.

Lemma clip_feasible_polygon_witness :
  clipPolyByHalfPlane [mkPt 2 0; mkPt 6 0; mkPt 2 8] budget
  = [mkPt 2 0; mkPt 6 0; mkPt 2 8].
Proof.
  destruct (clip_feasible_polygon [mkPt 2 0; mkPt 6 0; mkPt 2 8] budget)
    as (_ & _ & _ & Hsame).
  - reflexivity.
  - apply Hsame. reflexivity.
Defined.

End FeasibleZoneFacts.

Module HalfPlaneHeroFacts.
Import HalfPlaneHero.
Local Open Scope R_scope.

Lemma hypot_nonneg (u v : R) : 0 <= hypot u v.
Proof. unfold hypot. apply sqrt_pos. Qed.

Lemma hypot_sqr (u v : R) : hypot u v * hypot u v = u * u + v * v.
Proof. unfold hypot. apply sqrt_sqrt. nra. Qed.

Lemma hypot_opp (u v : R) : hypot (- u) (- v) = hypot u v.
Proof. unfold hypot. f_equal. ring. Qed.

Lemma hypot_pos (u v : R) : u <> 0 \/ v <> 0 -> 0 < hypot u v.
Proof.
  intro H. pose proof (hypot_nonneg u v) as H0.
  pose proof (hypot_sqr u v) as H1.
  destruct (Req_dec_T (hypot u v) 0) as [E | E]; [|lra].
  rewrite E in H1. exfalso. destruct H as [H | H]; apply H; nra.
Qed.

(** The divisor [Math.hypot(a, b) || 1] is never zero. *)
Lemma orElse_nonzero (n : R) : orElse n 1 <> 0.
Proof.
  unfold orElse. destruct (Req_dec_T n 0) as [E | E]; [lra | exact E].
Qed.

Lemma orElse_keep (n d : R) : n <> 0 -> orElse n d = n.
Proof.
  intro H. unfold orElse. destruct (Req_dec_T n 0); [contradiction | reflexivity].
Qed.

Lemma orElse_zero (d : R) : orElse 0 d = d.
Proof.
  unfold orElse. destruct (Req_dec_T 0 0); [reflexivity | contradiction].
Qed.

(** On a unit vector the sign rule picks exactly one of [(a,b)] and
    [(-a,-b)]. *)
Lemma flips_opp (fa fb : R) :
  fa * fa + fb * fb = 1 -> flips (- fa) (- fb) = negb (flips fa fb).
Proof.
  intro Hunit. unfold flips, EPS. rewrite Rabs_Ropp.
  destruct (Rltb (Rabs fa) 1e-6) eqn:Ea.
  - apply Rltb_lt in Ea.
    assert (Hb : fb <> 0).
    { intro Hb. rewrite Hb in Hunit.
      unfold Rabs in Ea. destruct (Rcase_abs fa); nra. }
    destruct (Rltb fb 0) eqn:Eb.
    + apply Rltb_lt in Eb. apply Rltb_ge. simpl. lra.
    + apply Rltb_ge in Eb. apply Rltb_lt. lra.
  - apply Rltb_ge in Ea.
    assert (Hne : fa <> 0).
    { intro Hz. rewrite Hz, Rabs_R0 in Ea. lra. }
    destruct (Rltb fa 0) eqn:Eb.
    + apply Rltb_lt in Eb. apply Rltb_ge. simpl. lra.
    + apply Rltb_ge in Eb. apply Rltb_lt. lra.
Qed.

Lemma sameLine_refl (u : Line) : sameLine u u = true.
Proof.
  unfold sameLine.
  set (u' := fix_ _ _ _).
  assert (H0 : forall t : R, Rltb (Rabs (t - t)) 1e-2 = true).
  { intro t. apply Rltb_lt. unfold Rminus. rewrite Rplus_opp_r, Rabs_R0. lra. }
  rewrite !H0. reflexivity.
Qed.

(** C10: on coincident points [lineFromPoints] divides by 1, not by the zero
    length of the direction vector, and returns the triple [(0, 0, 0)]; its
    divisor is non-zero on every input. *)
Theorem lineFromPoints_coincident :
  (forall u v : R, orElse (hypot u v) 1 <> 0)
  /\ (forall p : Pt,
        orElse (hypot (y p - y p) (- (x p - x p))) 1 = 1
        /\ lineFromPoints p p = mkLine 0 0 0).
Proof.
  split; [intros u v; apply orElse_nonzero|].
  intro p.
  assert (Hn : orElse (hypot (y p - y p) (- (x p - x p))) 1 = 1).
  { replace (y p - y p) with 0 by ring.
    replace (- (x p - x p)) with 0 by ring.
    unfold hypot. replace (0 * 0 + 0 * 0) with 0 by ring.
    rewrite sqrt_0. apply orElse_zero. }
  split; [exact Hn|].
  unfold lineFromPoints. rewrite Hn.
  replace ((y p - y p) / 1) with 0 by field.
  replace (- (x p - x p) / 1) with 0 by field.
  assert (H1 : Rltb (Rabs 0) EPS = true).
  { apply Rltb_lt. rewrite Rabs_R0. unfold EPS. lra. }
  assert (H2 : Rltb 0 0 = false) by (apply Rltb_ge; lra).
  rewrite H1, H2. f_equal; ring.
Qed.

(** C9: for distinct points [p1], [p2] the lines [lineFromPoints p1 p2] and
    [lineFromPoints p2 p1] are the same canonical triple, and [sameLine]
    accepts them. *)
Theorem lineFromPoints_symmetric (p1 p2 : Pt) :
  p1 <> p2 ->
  lineFromPoints p1 p2 = lineFromPoints p2 p1
  /\ sameLine (lineFromPoints p1 p2) (lineFromPoints p2 p1) = true.
Proof.
  intro Hne.
  assert (Heq : lineFromPoints p1 p2 = lineFromPoints p2 p1).
  { unfold lineFromPoints.
    set (dx := x p2 - x p1). set (dy := y p2 - y p1).
    replace (x p1 - x p2) with (- dx) by (unfold dx; ring).
    replace (y p1 - y p2) with (- dy) by (unfold dy; ring).
    rewrite (hypot_opp dy (- dx)).
    assert (Hd : dy <> 0 \/ - dx <> 0).
    { destruct (Req_dec_T dy 0) as [Ey | Ey]; [|left; exact Ey].
      right. intro Ex. apply Hne.
      destruct p1 as [x1 y1], p2 as [x2 y2]. unfold dx, dy in *. simpl in *.
      f_equal; lra. }
    pose proof (hypot_pos dy (- dx) Hd) as Hpos.
    pose proof (hypot_sqr dy (- dx)) as Hsq.
    rewrite orElse_keep by lra.
    set (n := hypot dy (- dx)) in *.
    set (a1 := dy / n). set (b1 := - dx / n).
    replace (- dy / n) with (- a1) by (unfold a1; field; lra).
    replace (- - dx / n) with (- b1) by (unfold b1; field; lra).
    assert (Hunit : a1 * a1 + b1 * b1 = 1).
    { unfold a1, b1.
      replace (dy / n * (dy / n) + - dx / n * (- dx / n))
        with ((dy * dy + - dx * - dx) / (n * n)) by (field; lra).
      rewrite <- Hsq. field. lra. }
    pose proof (flips_opp a1 b1 Hunit) as Hflip. unfold flips in Hflip.
    rewrite Hflip.
    assert (Hx2 : x p2 = x p1 + dx) by (unfold dx; ring).
    assert (Hy2 : y p2 = y p1 + dy) by (unfold dy; ring).
    assert (Hperp : a1 * dx + b1 * dy = 0) by (unfold a1, b1; field; lra).
    rewrite Hx2, Hy2.
    destruct (if Rltb (Rabs a1) EPS then Rltb b1 0 else Rltb a1 0);
      cbn [negb]; f_equal; nra. }
  split; [exact Heq|].
  rewrite Heq. apply sameLine_refl.
Qed.

Lemma lineFromPoints_symmetric_witness :
  sameLine (lineFromPoints (mkPt 0 0) (mkPt 3 4))
           (lineFromPoints (mkPt 3 4) (mkPt 0 0)) = true.
Proof.
  apply (lineFromPoints_symmetric (mkPt 0 0) (mkPt 3 4)).
  intro H. apply (f_equal x) in H. simpl in H. lra.
Defined.

End HalfPlaneHeroFacts.

(** * Further properties of the polygon engine *)
Module FeasibleZoneMore.
Import FeasibleZone FeasibleZoneFacts.
Local Open Scope Q_scope.

Lemma Subseq_In (l1 l2 : list Pt) (v : Pt) : Subseq l1 l2 -> In v l1 -> In v l2.
Proof.
  induction 1 as [|p l1 l2 _ IH|p l1 l2 _ IH]; intro Hv.
  - exact Hv.
  - destruct Hv as [<- | Hv]; [left; reflexivity | right; apply IH; exact Hv].
  - right. apply IH. exact Hv.
Qed.

Lemma Subseq_length (l1 l2 : list Pt) : Subseq l1 l2 -> (length l1 <= length l2)%nat.
Proof.
  induction 1; simpl; lia.
Qed.

Lemma cleanup_Subseq (l : list Pt) : Subseq (cleanup l) l.
Proof.
  destruct (cleanup_loop l []) as (r & Hr & Hsub & _).
  unfold cleanup. rewrite Hr. exact Hsub.
Qed.

Lemma Qabs_far_nonzero (den e : Q) : 0 < e -> e <= Qabs den -> ~ den == 0.
Proof.
  intros He Hge Hz. rewrite Hz in Hge. change (Qabs 0) with 0 in Hge.
  exact (Qlt_not_le _ _ He Hge).
Qed.

(** X1 (exact arithmetic): [intersectLineSegWithLine] returns the far
    endpoint [q] when the edge is parallel to the boundary within [1e-12];
    otherwise it returns a point of the boundary line that is collinear with
    [p] and [q], and that lies between them when [p] and [q] are on opposite
    sides of the line. *)
Theorem intersect_on_boundary (p q : Pt) (k : Constraint) :
  let den := a k * (x q - x p) + b k * (y q - y p) in
  let X := intersectLineSegWithLine p q k in
  (Qabs den < 1e-12 -> X = q)
  /\ (1e-12 <= Qabs den ->
      onBoundary k X
      /\ (x X - x p) * (y q - y p) == (y X - y p) * (x q - x p)
      /\ (a k * x p + b k * y p <= c k <= a k * x q + b k * y q
          \/ a k * x q + b k * y q <= c k <= a k * x p + b k * y p ->
          exists t, 0 <= t <= 1
                    /\ x X == x p + t * (x q - x p)
                    /\ y X == y p + t * (y q - y p))).
Proof.
  intros den X. unfold X, intersectLineSegWithLine. fold den. split.
  - intro Hlt. apply Qltb_lt in Hlt. rewrite Hlt. reflexivity.
  - intro Hge.
    assert (Hden : ~ den == 0) by (apply (Qabs_far_nonzero den 1e-12); [reflexivity | exact Hge]).
    apply Qltb_ge in Hge. rewrite Hge. cbn [x y]. unfold onBoundary. cbn [x y].
    repeat split.
    + unfold den in *. field. exact Hden.
    + unfold den in *. field. exact Hden.
    + intro Hsides.
      exists ((c k - (a k * x p + b k * y p)) / den).
      split; [|split; reflexivity].
      set (sp := a k * x p + b k * y p) in *.
      assert (Hsq : a k * x q + b k * y q == sp + den) by (unfold sp, den; ring).
      rewrite Hsq in Hsides.
      destruct (Qlt_le_dec 0 den) as [Hpos | Hneg].
      * split.
        -- apply Qle_shift_div_l; [exact Hpos|]. destruct Hsides as [[H1 H2] | [H1 H2]]; lra.
        -- apply Qle_shift_div_r; [exact Hpos|]. destruct Hsides as [[H1 H2] | [H1 H2]]; lra.
      * assert (Hlt : den < 0).
        { apply Qle_lteq in Hneg. destruct Hneg as [Hlt | Heq]; [exact Hlt|].
          exfalso. apply Hden. exact Heq. }
        assert (Hq : (c k - sp) / den == (sp - c k) / (- den)) by (field; lra).
        rewrite Hq. split.
        -- apply Qle_shift_div_l; [lra|]. destruct Hsides as [[H1 H2] | [H1 H2]]; lra.
        -- apply Qle_shift_div_r; [lra|]. destruct Hsides as [[H1 H2] | [H1 H2]]; lra.
Qed.

Lemma intersect_on_boundary_witness :
  onBoundary budget (intersectLineSegWithLine (mkPt 0 0) (mkPt 12 0) budget).
Proof.
  apply (intersect_on_boundary (mkPt 0 0) (mkPt 12 0) budget).
  vm_compute. discriminate.
Defined.

(** *** The walk of [clipPolyByHalfPlane], whatever the start status *)

Lemma intersect_cases (p q : Pt) (k : Constraint) :
  intersectLineSegWithLine p q k = q
  \/ onBoundary k (intersectLineSegWithLine p q k).
Proof.
  unfold intersectLineSegWithLine.
  set (den := a k * (x q - x p) + b k * (y q - y p)).
  destruct (Qltb (Qabs den) 1e-12) eqn:E; [left; reflexivity | right].
  apply Qltb_ge in E.
  assert (Hden : ~ den == 0)
    by (apply (Qabs_far_nonzero den 1e-12); [reflexivity | exact E]).
  unfold onBoundary. cbn [x y]. unfold den in *. field. exact Hden.
Qed.

(** What one iteration appends to [out]. *)
Lemma clipStep_emits (k : Constraint) (S_in : bool) (out : list Pt) (s E : Pt) :
  exists r0 : list Pt,
    clipStep k S_in (out, s) E = (out ++ r0, E)
    /\ (length r0 <= 2)%nat
    /\ (forall v, In v r0 -> v = E \/ onBoundary k v)
    /\ (insideHalfPlane E k = true -> In E r0)
    /\ (S_in = false -> insideHalfPlane E k = false -> r0 = []).
Proof.
  unfold clipStep. cbn [fst snd].
  destruct (insideHalfPlane E k) eqn:HE; destruct S_in; cbn [negb].
  - exists [E]. repeat split; simpl; try lia; try tauto; try discriminate.
    intros v [<- | []]. left. reflexivity.
  - exists [intersectLineSegWithLine s E k; E]. rewrite <- app_assoc.
    repeat split; simpl; try lia; try tauto; try discriminate.
    intros v [<- | [<- | []]]; [|left; reflexivity].
    destruct (intersect_cases s E k) as [-> | H]; [left; reflexivity | right; exact H].
  - exists [intersectLineSegWithLine s E k].
    repeat split; simpl; try lia; try tauto; try discriminate.
    intros v [<- | []].
    destruct (intersect_cases s E k) as [-> | H]; [left; reflexivity | right; exact H].
  - exists []. rewrite app_nil_r.
    repeat split; simpl; try lia; try tauto; try discriminate.
Qed.

Lemma clipStep_walk (k : Constraint) (S_in : bool) :
  forall (l out : list Pt) (s : Pt),
  exists r : list Pt,
    fst (fold_left (clipStep k S_in) l (out, s)) = out ++ r
    /\ (length r <= 2 * length l)%nat
    /\ (forall v, In v r -> In v l \/ onBoundary k v)
    /\ (forall v, In v l -> insideHalfPlane v k = true -> In v r)
    /\ (S_in = false ->
        (forall v, In v l -> insideHalfPlane v k = false) -> r = []).
Proof.
  induction l as [|E l IH]; intros out s.
  - exists []. rewrite app_nil_r. repeat split; simpl; try lia; tauto.
  - cbn [fold_left].
    destruct (clipStep_emits k S_in out s E) as (r0 & Hstep & Hlen0 & Horig0 & Hkeep0 & Hnone0).
    rewrite Hstep.
    destruct (IH (out ++ r0) E) as (r & Hr & Hlen & Horig & Hkeep & Hnone).
    exists (r0 ++ r). rewrite Hr, <- app_assoc. repeat split.
    + rewrite length_app. simpl. lia.
    + intros v Hv. apply in_app_or in Hv. destruct Hv as [Hv | Hv].
      * destruct (Horig0 v Hv) as [-> | H]; [left; left; reflexivity | right; exact H].
      * destruct (Horig v Hv) as [H | H]; [left; right; exact H | right; exact H].
    + intros v [<- | Hv] Hin; apply in_or_app.
      * left. apply Hkeep0. exact Hin.
      * right. apply Hkeep; assumption.
    + intros Hb Hout.
      rewrite (Hnone0 Hb (Hout E (or_introl eq_refl))).
      apply Hnone; [exact Hb|]. intros v Hv. apply Hout. right. exact Hv.
Qed.

Lemma clipWalk_facts (poly : list Pt) (k : Constraint) :
  (length (clipWalk poly k) <= 2 * length poly)%nat
  /\ (forall v, In v (clipWalk poly k) -> In v poly \/ onBoundary k v)
  /\ (forall v, In v poly -> insideHalfPlane v k = true -> In v (clipWalk poly k))
  /\ ((forall v, In v poly -> insideHalfPlane v k = false) -> clipWalk poly k = []).
Proof.
  destruct poly as [|p0 t].
  - simpl. repeat split; try lia; tauto.
  - unfold clipWalk.
    set (S_in := insideHalfPlane (last (p0 :: t) p0) k).
    destruct (clipStep_walk k S_in (p0 :: t) [] (last (p0 :: t) p0))
      as (r & Hr & Hlen & Horig & Hkeep & Hnone).
    rewrite Hr. cbn [app]. repeat split; try assumption.
    intro Hout. apply Hnone; [|exact Hout].
    unfold S_in. apply Hout. apply last_In. discriminate.
Qed.

Lemma clip_as_cleanup (poly : list Pt) (k : Constraint) :
  clipPolyByHalfPlane poly k = cleanup (clipWalk poly k).
Proof. destruct poly; reflexivity. Qed.

Lemma fold_clip_nil (ks : list Constraint) : fold_left clipPolyByHalfPlane ks [] = [].
Proof. induction ks as [|k ks IH]; [reflexivity | exact IH]. Qed.

(** X2: a constraint that rejects every vertex of the polygon empties it,
    and the polygon stays empty: as soon as one constraint of the list
    rejects every vertex of the polygon clipped so far, [feasiblePolygon]
    returns the empty list. *)
Theorem clip_outside_empty :
  (forall poly k,
     forallb (fun p => negb (insideHalfPlane p k)) poly = true ->
     clipPolyByHalfPlane poly k = [])
  /\ (forall dom ks1 k ks2,
        forallb (fun p => negb (insideHalfPlane p k)) (feasiblePolygon dom ks1) = true ->
        feasiblePolygon dom (ks1 ++ k :: ks2) = []).
Proof.
  assert (Hclip : forall poly k,
             forallb (fun p => negb (insideHalfPlane p k)) poly = true ->
             clipPolyByHalfPlane poly k = []).
  { intros poly k H. rewrite clip_as_cleanup.
    destruct (clipWalk_facts poly k) as (_ & _ & _ & Hnone).
    rewrite Hnone; [reflexivity|].
    intros v Hv. rewrite forallb_forall in H. apply negb_true_iff. apply H. exact Hv. }
  split; [exact Hclip|].
  intros dom ks1 k ks2 H. unfold feasiblePolygon in *.
  rewrite fold_left_app. cbn [fold_left]. rewrite (Hclip _ k H).
  apply fold_clip_nil.
Qed.

Lemma clip_outside_empty_witness :
  feasiblePolygon level1_dom ([mkConstraint 1 0 10 CGe] ++ mkConstraint 1 0 2 CLe :: [budget])
  = [].
Proof.
  apply (proj2 clip_outside_empty level1_dom [mkConstraint 1 0 10 CGe]
           (mkConstraint 1 0 2 CLe) [budget]).
  vm_compute. reflexivity.
Defined.

(** X3 (exact arithmetic): every vertex returned by [clipPolyByHalfPlane]
    is a vertex of the input polygon or a point of the constraint's boundary
    line; every vertex returned by [feasiblePolygon] is a corner of the
    domain rectangle or a point of the boundary line of one of the
    constraints. *)
Theorem clip_vertices_origin :
  (forall poly k v,
     In v (clipPolyByHalfPlane poly k) -> In v poly \/ onBoundary k v)
  /\ (forall dom ks v,
        In v (feasiblePolygon dom ks) ->
        In v (initRect dom) \/ exists k, In k ks /\ onBoundary k v).
Proof.
  assert (Hclip : forall poly k v,
             In v (clipPolyByHalfPlane poly k) -> In v poly \/ onBoundary k v).
  { intros poly k v Hv. rewrite clip_as_cleanup in Hv.
    apply (Subseq_In _ _ v (cleanup_Subseq _)) in Hv.
    destruct (clipWalk_facts poly k) as (_ & Horig & _). apply Horig. exact Hv. }
  split; [exact Hclip|].
  intros dom ks. unfold feasiblePolygon. generalize (initRect dom) as poly0.
  induction ks as [|k ks IH]; intros poly0 v Hv.
  - left. exact Hv.
  - cbn [fold_left] in Hv. destruct (IH _ v Hv) as [H | (k' & Hk' & H)].
    + destruct (Hclip _ _ _ H) as [H0 | H0].
      * left. exact H0.
      * right. exists k. split; [left; reflexivity | exact H0].
    + right. exists k'. split; [right; exact Hk' | exact H].
Qed.

Lemma clip_vertices_origin_witness :
  let v := intersectLineSegWithLine (mkPt 0 0) (mkPt 12 0) budget in
  In v (initRect level1_dom) \/ onBoundary budget v.
Proof.
  intro v.
  apply (proj1 clip_vertices_origin (initRect level1_dom) budget v).
  vm_compute. right. left. reflexivity.
Defined.

(** X4: one clip at most doubles the number of vertices, so
    [feasiblePolygon] never returns more than [4 * 2^n] vertices for [n]
    constraints. *)
Theorem clip_length_bound :
  (forall poly k, (length (clipPolyByHalfPlane poly k) <= 2 * length poly)%nat)
  /\ (forall dom ks,
        (length (feasiblePolygon dom ks) <= 4 * 2 ^ length ks)%nat).
Proof.
  assert (Hclip : forall poly k,
             (length (clipPolyByHalfPlane poly k) <= 2 * length poly)%nat).
  { intros poly k. rewrite clip_as_cleanup.
    pose proof (Subseq_length _ _ (cleanup_Subseq (clipWalk poly k))) as H1.
    destruct (clipWalk_facts poly k) as (H2 & _). lia. }
  split; [exact Hclip|].
  intros dom ks. unfold feasiblePolygon.
  assert (H : forall poly0,
             (length (fold_left clipPolyByHalfPlane ks poly0)
              <= length poly0 * 2 ^ length ks)%nat).
  { induction ks as [|k ks IH]; intro poly0.
    - simpl. lia.
    - cbn [fold_left length]. specialize (IH (clipPolyByHalfPlane poly0 k)).
      specialize (Hclip poly0 k). rewrite Nat.pow_succ_r'. nia. }
  apply (H (initRect dom)).
Qed.

(** X5: a vertex of the input that satisfies the constraint is never lost
    beyond the cleanup tolerance: the result of [clipPolyByHalfPlane] has a
    vertex within [1e-6] of it. *)
Theorem clip_keeps_inside_vertices (poly : list Pt) (k : Constraint) (v : Pt) :
  In v poly -> insideHalfPlane v k = true ->
  exists w, In w (clipPolyByHalfPlane poly k) /\ nearb v w = true.
Proof.
  intros Hv Hin. rewrite clip_as_cleanup.
  destruct (clipWalk_facts poly k) as (_ & _ & Hkeep & _).
  destruct (cleanup_loop (clipWalk poly k) []) as (r & Hr & _ & Hcov).
  unfold cleanup. rewrite Hr. apply Hcov. apply Hkeep; assumption.
Qed.

Lemma clip_keeps_inside_vertices_witness :
  exists w, In w (clipPolyByHalfPlane (initRect level1_dom) budget)
            /\ nearb (mkPt 0 12) w = true.
Proof.
  apply (clip_keeps_inside_vertices (initRect level1_dom) budget (mkPt 0 12)).
  - right. right. right. left. reflexivity.
  - reflexivity.
Defined.

(** *** The cleanup invariant *)

Lemma last_default_irrel (l : list Pt) (d1 d2 : Pt) :
  l <> [] -> last l d1 = last l d2.
Proof.
  induction l as [|q l IH]; intro H; [contradiction|].
  destruct l as [|r l]; [reflexivity|].
  change (last (r :: l) d1 = last (r :: l) d2). apply IH. discriminate.
Qed.

Lemma lastOpt_cons (q r : Pt) (t : list Pt) :
  lastOpt (q :: r :: t) = lastOpt (r :: t).
Proof.
  unfold lastOpt. f_equal.
  change (last (r :: t) q = last (r :: t) r).
  apply last_default_irrel. discriminate.
Qed.

Lemma spaced_snoc (acc : list Pt) (p l0 : Pt) :
  lastOpt acc = Some l0 ->
  spaced (acc ++ [p]) = spaced acc && negb (nearb p l0).
Proof.
  induction acc as [|q acc IH]; intro H; [discriminate|].
  destruct acc as [|r t].
  - injection H as <-. simpl. rewrite andb_true_r. reflexivity.
  - rewrite lastOpt_cons in H.
    change (negb (nearb r q) && spaced ((r :: t) ++ [p])
            = negb (nearb r q) && spaced (r :: t) && negb (nearb p l0)).
    rewrite (IH H), andb_assoc. reflexivity.
Qed.

Lemma cleanStep_spaced (l : list Pt) :
  forall acc, spaced acc = true -> spaced (fold_left cleanStep l acc) = true.
Proof.
  induction l as [|p l IH]; intros acc Hacc; [exact Hacc|].
  cbn [fold_left]. apply IH. unfold cleanStep.
  destruct (lastOpt acc) as [l0|] eqn:Elast.
  - destruct (hypot_gtb (x p - x l0) (y p - y l0) 1e-6) eqn:Efar; [|exact Hacc].
    rewrite (spaced_snoc acc p l0 Elast), Hacc. unfold nearb. rewrite Efar. reflexivity.
  - destruct acc; [reflexivity | discriminate].
Qed.

(** X6: in every polygon returned by [clipPolyByHalfPlane] each vertex is
    more than [1e-6] away from its predecessor; clipping such a result by a
    constraint that all its vertices satisfy returns it unchanged. *)
Theorem clip_result_spaced :
  (forall poly k, spaced (clipPolyByHalfPlane poly k) = true)
  /\ (forall poly k k',
        forallb (fun p => insideHalfPlane p k') (clipPolyByHalfPlane poly k) = true ->
        clipPolyByHalfPlane (clipPolyByHalfPlane poly k) k' = clipPolyByHalfPlane poly k).
Proof.
  assert (Hsp : forall poly k, spaced (clipPolyByHalfPlane poly k) = true).
  { intros poly k. rewrite clip_as_cleanup. unfold cleanup.
    apply cleanStep_spaced. reflexivity. }
  split; [exact Hsp|].
  intros poly k k' Hin.
  rewrite (clip_as_cleanup (clipPolyByHalfPlane poly k) k').
  rewrite clipWalk_all_inside by exact Hin.
  apply cleanup_spaced. apply Hsp.
Qed.

Lemma clip_result_spaced_witness :
  clipPolyByHalfPlane (clipPolyByHalfPlane (initRect level1_dom) security) security
  = clipPolyByHalfPlane (initRect level1_dom) security.
Proof.
  apply (proj2 clip_result_spaced (initRect level1_dom) security security).
  vm_compute. reflexivity.
Defined.

(** X7: when the four corners of the domain satisfy every constraint and the
    rectangle has no two consecutive corners within [1e-6],
    [feasiblePolygon] returns the rectangle itself. *)
Theorem feasiblePolygon_whole_domain (dom : Domain2D) (ks : list Constraint) :
  spaced (initRect dom) = true ->
  forallb (fun k => forallb (fun p => insideHalfPlane p k) (initRect dom)) ks = true ->
  feasiblePolygon dom ks = initRect dom.
Proof.
  intros Hsp Hall. unfold feasiblePolygon.
  induction ks as [|k ks IH]; [reflexivity|].
  cbn [forallb] in Hall. apply andb_true_iff in Hall. destruct Hall as [Hk Hks].
  cbn [fold_left]. rewrite clip_as_cleanup, clipWalk_all_inside by exact Hk.
  rewrite cleanup_spaced by exact Hsp. apply IH. exact Hks.
Qed.

Lemma feasiblePolygon_whole_domain_witness :
  feasiblePolygon level1_dom
    [mkConstraint 1 0 0 CGe; mkConstraint 0 1 0 CGe; mkConstraint 1 1 24 CLe]
  = initRect level1_dom.
Proof.
  apply (feasiblePolygon_whole_domain level1_dom); reflexivity.
Defined.

(** *** More on the area *)

Lemma cross_antisym (p q : Pt) : cross q p == - cross p q.
Proof. unfold cross. ring. Qed.

Lemma chain_rev (m : list Pt) : chain (rev m) == - chain m.
Proof.
  induction m as [|p m IH]; [reflexivity|].
  destruct m as [|q m]; [reflexivity|].
  rewrite chain_cons2.
  change (rev (p :: q :: m)) with ((rev m ++ [q]) ++ [p]).
  rewrite <- app_assoc. cbn [app].
  rewrite (chain_app (rev m) [p] q).
  change (rev m ++ [q]) with (rev (q :: m)). rewrite IH.
  cbn [chain]. rewrite (cross_antisym p q). ring.
Qed.

Lemma closedSum_rev (poly : list Pt) : closedSum (rev poly) == - closedSum poly.
Proof.
  destruct poly as [|p t]; [reflexivity|].
  cbn [rev]. rewrite closedSum_swap.
  unfold closedSum. cbn [app hd].
  assert (E : p :: (rev t ++ [p]) = rev (p :: (t ++ [p]))).
  { change (p :: (t ++ [p])) with ((p :: t) ++ [p]).
    rewrite rev_app_distr. reflexivity. }
  rewrite E. apply chain_rev.
Qed.

(** X8: the area does not depend on the winding direction:
    [polygonArea] of the reversed vertex list is the same. *)
Theorem polygonArea_rev (poly : list Pt) :
  polygonArea (rev poly) == polygonArea poly.
Proof.
  unfold polygonArea. rewrite length_rev.
  destruct (length poly <? 3)%nat; [reflexivity|].
  rewrite !shoelace_closedSum, closedSum_rev, Qabs_opp. reflexivity.
Qed.

(** X9 (exact arithmetic): the area of the unclipped domain rectangle is
    the product of its sides. *)
Theorem polygonArea_initRect (dom : Domain2D) :
  polygonArea (initRect dom)
  == Qabs ((xmax dom - xmin dom) * (ymax dom - ymin dom)).
Proof.
  unfold polygonArea. cbn [initRect length Nat.ltb Nat.leb].
  rewrite shoelace_closedSum. unfold closedSum, initRect.
  cbn [app hd chain]. unfold cross. cbn [x y].
  unfold Qdiv. rewrite <- (Qabs_pos (/ 2)) at 1 by discriminate.
  rewrite <- Qabs_Qmult. apply Qabs_wd. field.
Qed.

Lemma last_cons_default (q d : Pt) (m : list Pt) : last (q :: m) d = last m q.
Proof.
  destruct m as [|r m]; [reflexivity|].
  change (last (r :: m) d = last (r :: m) q).
  apply last_default_irrel. discriminate.
Qed.

(** Along an open chain the translation terms telescope. *)
Lemma chain_translate (dx dy : Q) (m : list Pt) :
  forall p : Pt,
    chain (translate dx dy (p :: m))
    == chain (p :: m)
       + dy * (x p - x (last m p)) + dx * (y (last m p) - y p).
Proof.
  induction m as [|q m IH]; intro p.
  - simpl. ring.
  - change (translate dx dy (p :: q :: m))
      with (mkPt (x p + dx) (y p + dy) :: translate dx dy (q :: m)).
    change (translate dx dy (q :: m))
      with (mkPt (x q + dx) (y q + dy) :: translate dx dy m) at 1.
    rewrite chain_cons2.
    change (mkPt (x q + dx) (y q + dy) :: translate dx dy m)
      with (translate dx dy (q :: m)).
    rewrite (IH q), chain_cons2, last_cons_default.
    unfold cross. cbn [x y]. ring.
Qed.

Lemma closedSum_translate (dx dy : Q) (poly : list Pt) :
  closedSum (translate dx dy poly) == closedSum poly.
Proof.
  destruct poly as [|p t]; [reflexivity|].
  unfold closedSum.
  change (translate dx dy (p :: t) ++ [hd (mkPt 0 0) (translate dx dy (p :: t))])
    with (translate dx dy (p :: t) ++ translate dx dy [p]).
  unfold translate at 1 2. rewrite <- map_app. fold (translate dx dy ((p :: t) ++ [p])).
  cbn [app hd]. rewrite chain_translate, last_last. ring.
Qed.

(** X10: moving a polygon does not change its area. *)
Theorem polygonArea_translate (dx dy : Q) (poly : list Pt) :
  polygonArea (translate dx dy poly) == polygonArea poly.
Proof.
  unfold polygonArea. unfold translate at 1. rewrite length_map.
  destruct (length poly <? 3)%nat; [reflexivity|].
  rewrite !shoelace_closedSum, closedSum_translate. reflexivity.
Qed.

(** *** What the lattice comparison decides *)

Lemma latticeAt_succ_r (lo : Q) (i : nat) :
  latticeAt lo (S i) = latticeAt (lo + step) i.
Proof.
  unfold latticeAt. induction i as [|i IH]; [reflexivity|].
  change (Nat.iter (S (S i)) (fun v => v + step) lo)
    with (Nat.iter (S i) (fun v => v + step) lo + step).
  rewrite IH. reflexivity.
Qed.

Lemma latticeAt_ge (lo : Q) (i : nat) : lo <= latticeAt lo i.
Proof.
  induction i as [|i IH]; [apply Qle_refl|].
  change (latticeAt lo (S i)) with (latticeAt lo i + step).
  unfold step. lra.
Qed.

Lemma latticeAt_closed_form (lo : Q) (i : nat) :
  latticeAt lo i == lo + inject_Z (Z.of_nat i) * 0.5.
Proof.
  induction i as [|i IH]; [simpl; ring|].
  change (latticeAt lo (S i)) with (latticeAt lo i + step).
  rewrite IH, Nat2Z.inj_succ. unfold Z.succ. rewrite inject_Z_plus.
  unfold step. change (inject_Z 1) with 1. ring.
Qed.

Section LatticeVerdict.

Variables A B : list Constraint.

Lemma agree_shift (P : Q -> Prop) (lo hi : Q) :
  lo <= hi -> P lo ->
  (forall j, latticeAt (lo + step) j <= hi -> P (latticeAt (lo + step) j)) ->
  forall j, latticeAt lo j <= hi -> P (latticeAt lo j).
Proof.
  intros Hle H0 Hrest [|j] Hj; [exact H0|].
  rewrite latticeAt_succ_r in *. apply Hrest. exact Hj.
Qed.

Lemma loopY_true_iff (ymax_ px : Q) :
  forall (fuel : nat) (py : Q),
    (iterations py ymax_ < fuel)%nat ->
    (loopY fuel A B ymax_ px py = Some true
     <-> forall j, latticeAt py j <= ymax_ -> agreeAt A B px (latticeAt py j)).
Proof.
  induction fuel as [|fuel IH]; intros py Hfuel; [lia|].
  cbn [loopY]. fold (every A (mkPt px py)). fold (every B (mkPt px py)).
  destruct (Qle_bool py ymax_) eqn:E.
  - apply Qle_bool_iff in E.
    pose proof (iterations_step py ymax_ E) as Hstep.
    destruct (Bool.eqb (every A (mkPt px py)) (every B (mkPt px py))) eqn:Eeq; cbn [negb].
    + apply eqb_prop in Eeq.
      rewrite (IH (py + step)) by lia. split.
      * intros H. apply (agree_shift (agreeAt A B px) py ymax_ E Eeq H).
      * intros H j Hj. rewrite <- latticeAt_succ_r in *. apply H. exact Hj.
    + split; [discriminate|].
      intro H. specialize (H O E). unfold agreeAt in H. cbn in H.
      rewrite H, eqb_reflx in Eeq. discriminate.
  - split; [|reflexivity]. intros _ j Hj. exfalso.
    pose proof (latticeAt_ge py j) as Hge.
    assert (Hle : py <= ymax_) by (eapply Qle_trans; eassumption).
    apply Qle_bool_iff in Hle. congruence.
Qed.

Lemma loopX_true_iff (dom : Domain2D) :
  forall (fuel : nat) (px : Q),
    (iterations px (xmax dom) < fuel)%nat ->
    (loopX fuel A B dom px = Some true
     <-> forall i j, latticeAt px i <= xmax dom -> latticeAt (ymin dom) j <= ymax dom ->
                     agreeAt A B (latticeAt px i) (latticeAt (ymin dom) j)).
Proof.
  induction fuel as [|fuel IH]; intros px Hfuel; [lia|].
  cbn [loopX].
  destruct (Qle_bool px (xmax dom)) eqn:E.
  - apply Qle_bool_iff in E.
    pose proof (iterations_step px (xmax dom) E) as Hstep.
    assert (HY := loopY_true_iff (ymax dom) px
                    (S (iterations (ymin dom) (ymax dom))) (ymin dom)
                    (Nat.lt_succ_diag_r _)).
    destruct (loopY_total A B (ymax dom) px (S (iterations (ymin dom) (ymax dom)))
                (ymin dom) (Nat.lt_succ_diag_r _)) as [r Hr].
    rewrite Hr in *. destruct r.
    + rewrite (IH (px + step)) by lia. split.
      * intros H i j Hi Hj. revert i Hi.
        apply (agree_shift (fun v => agreeAt A B v (latticeAt (ymin dom) j)) px (xmax dom) E).
        -- apply HY; [reflexivity | exact Hj].
        -- intros i Hi. apply H; assumption.
      * intros H i j Hi Hj. rewrite <- latticeAt_succ_r in *. apply H; assumption.
    + split; [discriminate|].
      intro H. apply HY. intros j Hj. apply (H O j E Hj).
  - split; [|reflexivity]. intros _ i j Hi _. exfalso.
    pose proof (latticeAt_ge px i) as Hge.
    assert (Hle : px <= xmax dom) by (eapply Qle_trans; eassumption).
    apply Qle_bool_iff in Hle. congruence.
Qed.

End LatticeVerdict.

Lemma systemsEquivalent_true_iff (dom : Domain2D) (A B : list Constraint) :
  systemsEquivalent dom A B = Some true
  <-> forall i j,
        latticeAt (xmin dom) i <= xmax dom -> latticeAt (ymin dom) j <= ymax dom ->
        every A (mkPt (latticeAt (xmin dom) i) (latticeAt (ymin dom) j))
        = every B (mkPt (latticeAt (xmin dom) i) (latticeAt (ymin dom) j)).
Proof.
  unfold systemsEquivalent. apply loopX_true_iff. lia.
Qed.

(** The verdict only depends on what each system accepts. *)
Lemma systemsEquivalent_ext (dom : Domain2D) (A A' B B' : list Constraint) :
  (forall p, every A p = every A' p) -> (forall p, every B p = every B' p) ->
  systemsEquivalent dom A B = systemsEquivalent dom A' B'.
Proof.
  intros HA HB.
  destruct (systemsEquivalent_total dom A B) as [r Hr].
  destruct (systemsEquivalent_total dom A' B') as [r' Hr'].
  rewrite Hr, Hr'. f_equal.
  destruct r, r'; try reflexivity; exfalso.
  - pose proof (proj1 (systemsEquivalent_true_iff _ _ _) Hr) as Hr1.
    assert (H : systemsEquivalent dom A' B' = Some true).
    { apply systemsEquivalent_true_iff. intros i j Hi Hj.
      rewrite <- HA, <- HB. apply Hr1; assumption. }
    congruence.
  - pose proof (proj1 (systemsEquivalent_true_iff _ _ _) Hr') as Hr1.
    assert (H : systemsEquivalent dom A B = Some true).
    { apply systemsEquivalent_true_iff. intros i j Hi Hj.
      rewrite HA, HB. apply Hr1; assumption. }
    congruence.
Qed.

Lemma every_Permutation (A A' : list Constraint) (p : Pt) :
  Permutation A A' -> every A p = every A' p.
Proof.
  unfold every. induction 1 as [|k l l' _ IH|k k' l|l l' l'' _ IH1 _ IH2]; simpl.
  - reflexivity.
  - rewrite IH. reflexivity.
  - rewrite !andb_assoc, (andb_comm (insideHalfPlane p k')). reflexivity.
  - rewrite IH1. exact IH2.
Qed.

(** X11 (exact arithmetic): [systemsEquivalent] answers [true] exactly when
    the two systems accept the same points of the lattice
    [(xmin + i/2, ymin + j/2)] that lies in the domain; so a [false] verdict
    is never wrong: the two systems then do not accept the same points of
    the domain. *)
Theorem systemsEquivalent_lattice (dom : Domain2D) (A B : list Constraint) :
  let X := fun i => latticeAt (xmin dom) i in
  let Y := fun j => latticeAt (ymin dom) j in
  (forall i j, X i == xmin dom + inject_Z (Z.of_nat i) * 0.5
               /\ Y j == ymin dom + inject_Z (Z.of_nat j) * 0.5)
  /\ (systemsEquivalent dom A B = Some true
      <-> forall i j, X i <= xmax dom -> Y j <= ymax dom ->
                      every A (mkPt (X i) (Y j)) = every B (mkPt (X i) (Y j)))
  /\ (systemsEquivalent dom A B = Some false ->
      ~ forall p, xmin dom <= x p <= xmax dom -> ymin dom <= y p <= ymax dom ->
                  every A p = every B p).
Proof.
  intros X Y. split; [|split].
  - intros i j. split; apply latticeAt_closed_form.
  - apply systemsEquivalent_true_iff.
  - intros Hfalse Hall.
    assert (H : systemsEquivalent dom A B = Some true).
    { apply systemsEquivalent_true_iff. intros i j Hi Hj. apply Hall; cbn [x y].
      - split; [apply latticeAt_ge | exact Hi].
      - split; [apply latticeAt_ge | exact Hj]. }
    congruence.
Qed.

Lemma systemsEquivalent_lattice_witness :
  ~ forall p,
      xmin level1_dom <= x p <= xmax level1_dom ->
      ymin level1_dom <= y p <= ymax level1_dom ->
      every [security] p = every [mkConstraint 1 0 2.0001 CGe] p.
Proof.
  destruct (systemsEquivalent_lattice level1_dom [security] [mkConstraint 1 0 2.0001 CGe])
    as (_ & _ & H).
  apply H. vm_compute. reflexivity.
Defined.

(** X12: the verdict of [systemsEquivalent] is symmetric in the two systems,
    is [true] for a system against itself, and does not depend on the order
    in which each system lists its constraints. *)
Theorem systemsEquivalent_relation (dom : Domain2D) (A B A' B' : list Constraint) :
  systemsEquivalent dom A B = systemsEquivalent dom B A
  /\ systemsEquivalent dom A A = Some true
  /\ (Permutation A A' -> Permutation B B' ->
      systemsEquivalent dom A B = systemsEquivalent dom A' B').
Proof.
  split; [|split].
  - destruct (systemsEquivalent_total dom A B) as [r Hr].
    destruct (systemsEquivalent_total dom B A) as [r' Hr'].
    rewrite Hr, Hr'. f_equal.
    destruct r, r'; try reflexivity; exfalso.
    + pose proof (proj1 (systemsEquivalent_true_iff _ _ _) Hr) as Hr1.
      assert (H : systemsEquivalent dom B A = Some true).
      { apply systemsEquivalent_true_iff. intros i j Hi Hj.
        symmetry. apply Hr1; assumption. }
      congruence.
    + pose proof (proj1 (systemsEquivalent_true_iff _ _ _) Hr') as Hr1.
      assert (H : systemsEquivalent dom A B = Some true).
      { apply systemsEquivalent_true_iff. intros i j Hi Hj.
        symmetry. apply Hr1; assumption. }
      congruence.
  - apply systemsEquivalent_true_iff. reflexivity.
  - intros HA HB. apply systemsEquivalent_ext; intro p;
      apply every_Permutation; assumption.
Qed.

Lemma systemsEquivalent_relation_witness :
  systemsEquivalent level1_dom [budget; security] [security; budget]
  = systemsEquivalent level1_dom [security; budget] [security; budget].
Proof.
  apply (systemsEquivalent_relation level1_dom
           [budget; security] [security; budget] [security; budget] [security; budget]).
  - apply perm_swap.
  - apply Permutation_refl.
Defined.

(** *** Binding, slack, violated *)

(** X13: [bindingStatus] answers [violated] exactly when [insideHalfPlane]
    rejects the point; [binding] and [slack] are told apart by
    [|a*x + b*y - c| <= 0.01].  A point exactly on the boundary line is
    binding for [<=] and [>=] and violated for [<] and [>]. *)
Theorem bindingStatus_cases (p : Pt) (k : Constraint) :
  (bindingStatus p k = violated <-> insideHalfPlane p k = false)
  /\ (bindingStatus p k = binding
      <-> insideHalfPlane p k = true /\ Qabs (residual p k) <= 1e-2)
  /\ (bindingStatus p k = slack
      <-> insideHalfPlane p k = true /\ 1e-2 < Qabs (residual p k))
  /\ (residual p k == 0 ->
      bindingStatus p k
      = match comp k with CLe | CGe => binding | CLt | CGt => violated end).
Proof.
  unfold bindingStatus. fold (residual p k).
  assert (Hb : Qle_bool (Qabs (residual p k)) 1e-2 = true
               <-> Qabs (residual p k) <= 1e-2) by apply Qle_bool_iff.
  assert (Hs : Qle_bool (Qabs (residual p k)) 1e-2 = false
               <-> 1e-2 < Qabs (residual p k)).
  { rewrite <- Qltb_lt. unfold Qltb. rewrite negb_true_iff. reflexivity. }
  split; [|split; [|split]].
  - split.
    + destruct (insideHalfPlane p k); cbn [negb]; [|reflexivity].
      destruct (Qle_bool _ _); discriminate.
    + intro H. rewrite H. reflexivity.
  - split.
    + destruct (insideHalfPlane p k); cbn [negb]; [|discriminate].
      destruct (Qle_bool (Qabs (residual p k)) 1e-2) eqn:E; [|discriminate].
      intros _. split; [reflexivity | apply Hb; reflexivity].
    + intros [Hin Hle]. rewrite Hin. cbn [negb]. apply Hb in Hle. rewrite Hle.
      reflexivity.
  - split.
    + destruct (insideHalfPlane p k); cbn [negb]; [|discriminate].
      destruct (Qle_bool (Qabs (residual p k)) 1e-2) eqn:E; [discriminate|].
      intros _. split; [reflexivity | apply Hs; reflexivity].
    + intros [Hin Hlt]. rewrite Hin. cbn [negb]. apply Hs in Hlt. rewrite Hlt.
      reflexivity.
  - intro Hz.
    assert (Hsum : a k * x p + b k * y p == c k).
    { unfold residual in Hz. lra. }
    assert (Hle : Qle_bool (Qabs (residual p k)) 1e-2 = true).
    { apply Qle_bool_iff. rewrite Hz. discriminate. }
    unfold insideHalfPlane. destruct (comp k).
    + assert (Hin : Qle_bool (a k * x p + b k * y p) (c k + 1e-9) = true).
      { apply Qle_bool_iff. rewrite Hsum.
        rewrite <- (Qplus_0_r (c k)) at 1. apply Qplus_le_r. discriminate. }
      rewrite Hin, Hle. reflexivity.
    + assert (Hout : Qltb (a k * x p + b k * y p) (c k - 1e-9) = false).
      { apply Qltb_ge. rewrite Hsum.
        rewrite <- (Qplus_0_r (c k)) at 2. apply Qplus_le_r. discriminate. }
      rewrite Hout. reflexivity.
    + assert (Hin : Qle_bool (c k - 1e-9) (a k * x p + b k * y p) = true).
      { apply Qle_bool_iff. rewrite Hsum.
        rewrite <- (Qplus_0_r (c k)) at 2. apply Qplus_le_r. discriminate. }
      rewrite Hin, Hle. reflexivity.
    + assert (Hout : Qltb (c k + 1e-9) (a k * x p + b k * y p) = false).
      { apply Qltb_ge. rewrite Hsum.
        rewrite <- (Qplus_0_r (c k)) at 1. apply Qplus_le_r. discriminate. }
      rewrite Hout. reflexivity.
Qed.

Lemma bindingStatus_cases_witness :
  bindingStatus (mkPt 3 6) (mkConstraint 2 1 12 CLt) = violated.
Proof.
  destruct (bindingStatus_cases (mkPt 3 6) (mkConstraint 2 1 12 CLt))
    as (_ & _ & _ & H).
  apply H. reflexivity.
Defined.

(** *** [tweak]: the player's starting system *)

Lemma mapi_length {A B : Type} (f : nat -> A -> B) (l : list A) :
  forall i0, length (mapi f i0 l) = length l.
Proof.
  induction l as [|k l IH]; intro i0; [reflexivity|].
  simpl. rewrite IH. reflexivity.
Qed.

Lemma mapi_nth_error {A B : Type} (f : nat -> A -> B) (l : list A) :
  forall i0 n,
    nth_error (mapi f i0 l) n = option_map (f (i0 + n)%nat) (nth_error l n).
Proof.
  induction l as [|k l IH]; intros i0 [|n]; simpl; try reflexivity.
  - rewrite Nat.add_0_r. reflexivity.
  - rewrite IH. replace (S i0 + n)%nat with (i0 + S n)%nat by lia. reflexivity.
Qed.

(** X14: [tweak] keeps the number of constraints and their [a] and [b];
    it moves every [c] to a multiple of one half [c'], with
    [c + 0.75 < c' <= c + 1.25] at even positions and
    [c - 1.25 < c' <= c - 0.75] at odd ones, so no [c] is left as it was; and
    it changes one comparator only, [<=] into [<] at position 0. *)
Theorem tweak_changes_every_c (ks : list Constraint) :
  length (tweak ks) = length ks
  /\ forall i k,
       nth_error ks i = Some k ->
       exists k',
         nth_error (tweak ks) i = Some k'
         /\ a k' = a k /\ b k' = b k
         /\ (exists z, c k' == inject_Z z / 2)
         /\ (if (i mod 2 =? 0)%nat
             then c k + 0.75 < c k' <= c k + 1.25
             else c k - 1.25 < c k' <= c k - 0.75)
         /\ comp k' = match i, comp k with
                      | O, CLe => CLt
                      | _, other => other
                      end.
Proof.
  split; [apply mapi_length|].
  intros i k Hk. exists (tweakOne i k). split.
  - unfold tweak. rewrite mapi_nth_error, Hk. reflexivity.
  - unfold tweakOne. cbn [a b c comp]. repeat split.
    + eexists. reflexivity.
    + destruct (i mod 2 =? 0)%nat.
      * pose proof (jsRound_bounds ((c k + 1) * 2)) as [H1 H2].
        split.
        -- apply Qlt_shift_div_l; [reflexivity|]. lra.
        -- apply Qle_shift_div_r; [reflexivity|]. lra.
      * pose proof (jsRound_bounds ((c k + -1) * 2)) as [H1 H2].
        split.
        -- apply Qlt_shift_div_l; [reflexivity|]. lra.
        -- apply Qle_shift_div_r; [reflexivity|]. lra.
    + destruct i; destruct (comp k); reflexivity.
Qed.

Lemma tweak_changes_every_c_witness :
  exists k',
    nth_error (tweak level1_target) 1 = Some k'
    /\ a k' = 1 /\ b k' = 0
    /\ (exists z, c k' == inject_Z z / 2)
    /\ (c security - 1.25 < c k' <= c security - 0.75)
    /\ comp k' = CGe.
Proof.
  apply (proj2 (tweak_changes_every_c level1_target) 1%nat security).
  reflexivity.
Defined.

(** *** The coordinate maps of the board *)

Lemma jsMax_ge_l (u v : Q) : u <= jsMax u v.
Proof.
  unfold jsMax. destruct (Qle_bool u v) eqn:E.
  - apply Qle_bool_iff. exact E.
  - apply Qle_refl.
Qed.

Lemma board_span_pos (w h : Q) :
  0 < boardW w - 2 * pad /\ 0 < boardH h - 2 * pad.
Proof.
  pose proof (jsMax_ge_l 320 w). pose proof (jsMax_ge_l 300 h).
  unfold boardW, boardH, pad. split; lra.
Qed.

(** X15 (exact arithmetic): the pixel spans [W - 2*pad] and [H - 2*pad] of
    the board are positive whatever its measured size, and on a domain of
    non-zero width and height the pixel maps and their inverses undo each
    other: [ux (sx v) = v], [sx (ux px) = px], and the same for [sy] and
    [uy]. *)
Theorem board_maps_round_trip (dom : Domain2D) (w h : Q) :
  ~ xmax dom == xmin dom -> ~ ymax dom == ymin dom ->
  (0 < boardW w - 2 * pad /\ 0 < boardH h - 2 * pad)
  /\ (forall v, ux dom w (sx dom w v) == v)
  /\ (forall px, sx dom w (ux dom w px) == px)
  /\ (forall v, uy dom h (sy dom h v) == v)
  /\ (forall py, sy dom h (uy dom h py) == py).
Proof.
  intros Hx Hy. destruct (board_span_pos w h) as [HW HH].
  assert (HW0 : ~ boardW w - 2 * pad == 0) by lra.
  assert (HH0 : ~ boardH h - 2 * pad == 0) by lra.
  assert (Hx0 : ~ xmax dom - xmin dom == 0) by lra.
  assert (Hy0 : ~ ymax dom - ymin dom == 0) by lra.
  split; [split; assumption|].
  repeat split; intro v; unfold ux, sx, uy, sy; field; auto.
Qed.

Lemma board_maps_round_trip_witness :
  0 < boardW 640 - 2 * pad /\ ux level1_dom 640 (sx level1_dom 640 5) == 5.
Proof.
  destruct (board_maps_round_trip level1_dom 640 480) as ((HW & _) & H & _).
  - intro H. vm_compute in H. discriminate.
  - intro H. vm_compute in H. discriminate.
  - split; [exact HW | exact (H 5)].
Defined.

End FeasibleZoneMore.

(** * Further properties of line canonicalisation *)
Module HalfPlaneHeroMore.
Import HalfPlaneHero HalfPlaneHeroFacts.
Local Open Scope R_scope.

Lemma Rleb_le (u v : R) : Rleb u v = true <-> u <= v.
Proof.
  unfold Rleb. destruct (Rle_dec u v); split; intro; try assumption;
    try reflexivity; try discriminate; contradiction.
Qed.

Lemma pt_neq_delta (p1 p2 : Pt) :
  p1 <> p2 -> y p2 - y p1 <> 0 \/ - (x p2 - x p1) <> 0.
Proof.
  intro Hne.
  destruct (Req_dec_T (y p2 - y p1) 0) as [Ey | Ey]; [|left; exact Ey].
  right. intro Ex. apply Hne.
  destruct p1 as [x1 y1], p2 as [x2 y2]. simpl in *. f_equal; lra.
Qed.

(** The unit normal computed by [lineFromPoints] for a non-zero direction. *)
Lemma unit_normal (dx dy : R) :
  dy <> 0 \/ - dx <> 0 ->
  let n := orElse (hypot dy (- dx)) 1 in
  dy / n * (dy / n) + - dx / n * (- dx / n) = 1
  /\ dy / n * dx + - dx / n * dy = 0.
Proof.
  intros Hd n.
  pose proof (hypot_pos dy (- dx) Hd) as Hpos.
  pose proof (hypot_sqr dy (- dx)) as Hsq.
  unfold n. rewrite orElse_keep by lra.
  set (h := hypot dy (- dx)) in *.
  split.
  - replace (dy / h * (dy / h) + - dx / h * (- dx / h))
      with ((dy * dy + - dx * - dx) / (h * h)) by (field; lra).
    rewrite <- Hsq. field. lra.
  - field. lra.
Qed.

Lemma flips_false_sign (fa fb : R) :
  fa * fa + fb * fb = 1 -> flips fa fb = false ->
  (Rabs fa < EPS -> 0 < fb) /\ (EPS <= Rabs fa -> 0 < fa).
Proof.
  intros Hunit Hf. unfold flips in Hf. unfold EPS in *.
  destruct (Rltb (Rabs fa) 1e-6) eqn:Ea.
  - apply Rltb_lt in Ea. apply Rltb_ge in Hf. split; [|lra].
    intros _. destruct (Req_dec_T fb 0) as [E | E]; [|lra].
    exfalso. rewrite E in Hunit. unfold Rabs in Ea. destruct (Rcase_abs fa); nra.
  - apply Rltb_ge in Ea. apply Rltb_ge in Hf. split; [lra|].
    intros _. destruct (Req_dec_T fa 0) as [E | E]; [|lra].
    exfalso. rewrite E, Rabs_R0 in Ea. lra.
Qed.

Lemma lineFromPoints_facts (p1 p2 : Pt) :
  p1 <> p2 ->
  unitNormal (lineFromPoints p1 p2)
  /\ onLine (lineFromPoints p1 p2) p1
  /\ onLine (lineFromPoints p1 p2) p2
  /\ flips (a (lineFromPoints p1 p2)) (b (lineFromPoints p1 p2)) = false.
Proof.
  intro Hne. pose proof (pt_neq_delta p1 p2 Hne) as Hd.
  destruct (unit_normal (x p2 - x p1) (y p2 - y p1) Hd) as [Hunit Hperp].
  unfold lineFromPoints, unitNormal, onLine.
  set (dx := x p2 - x p1) in *. set (dy := y p2 - y p1) in *.
  set (n := orElse (hypot dy (- dx)) 1) in *.
  set (a1 := dy / n) in *. set (b1 := - dx / n) in *.
  fold (flips a1 b1).
  assert (Hx2 : x p2 = x p1 + dx) by (unfold dx; ring).
  assert (Hy2 : y p2 = y p1 + dy) by (unfold dy; ring).
  pose proof (flips_opp a1 b1 Hunit) as Hopp.
  destruct (flips a1 b1) eqn:Ef; cbn [a b c negb] in *.
  - repeat split; try nra. exact Hopp.
  - repeat split; try nra. exact Ef.
Qed.

(** X16: for distinct points [lineFromPoints] returns a unit normal, a line
    through both points, and the fixed sign: [b > 0] when [|a| < 1e-6], and
    [a > 0] otherwise. *)
Theorem lineFromPoints_canonical (p1 p2 : Pt) :
  p1 <> p2 ->
  let L := lineFromPoints p1 p2 in
  a L * a L + b L * b L = 1
  /\ a L * x p1 + b L * y p1 = c L
  /\ a L * x p2 + b L * y p2 = c L
  /\ (Rabs (a L) < EPS -> 0 < b L)
  /\ (EPS <= Rabs (a L) -> 0 < a L).
Proof.
  intros Hne L.
  destruct (lineFromPoints_facts p1 p2 Hne) as (Hunit & H1 & H2 & Hf).
  destruct (flips_false_sign _ _ Hunit Hf) as [Hb Ha].
  repeat split; assumption.
Qed.

Lemma lineFromPoints_canonical_witness :
  a (lineFromPoints (mkPt 0 0) (mkPt 3 4)) * 3
  + b (lineFromPoints (mkPt 0 0) (mkPt 3 4)) * 4
  = c (lineFromPoints (mkPt 0 0) (mkPt 3 4)).
Proof.
  apply (lineFromPoints_canonical (mkPt 0 0) (mkPt 3 4)).
  intro H. apply (f_equal x) in H. simpl in H. lra.
Defined.

(** *** [sameLine] accepts every two descriptions of one line *)

Lemma parallel_normals (a1 b1 a2 b2 dx dy : R) :
  dx <> 0 \/ dy <> 0 ->
  a1 * dx + b1 * dy = 0 -> a2 * dx + b2 * dy = 0 ->
  a1 * b2 - a2 * b1 = 0.
Proof.
  intros Hd H1 H2.
  assert (Hx : (a1 * b2 - a2 * b1) * dx = 0).
  { replace ((a1 * b2 - a2 * b1) * dx)
      with (b2 * (a1 * dx + b1 * dy) - b1 * (a2 * dx + b2 * dy)) by ring.
    rewrite H1, H2. ring. }
  assert (Hy : (a1 * b2 - a2 * b1) * dy = 0).
  { replace ((a1 * b2 - a2 * b1) * dy)
      with (a1 * (a2 * dx + b2 * dy) - a2 * (a1 * dx + b1 * dy)) by ring.
    rewrite H1, H2. ring. }
  destruct Hd as [Hd | Hd].
  - apply Rmult_integral in Hx. destruct Hx; [assumption | contradiction].
  - apply Rmult_integral in Hy. destruct Hy; [assumption | contradiction].
Qed.

Lemma unit_parallel (a1 b1 a2 b2 : R) :
  a1 * a1 + b1 * b1 = 1 -> a2 * a2 + b2 * b2 = 1 ->
  a1 * b2 - a2 * b1 = 0 ->
  (a2 = a1 /\ b2 = b1) \/ (a2 = - a1 /\ b2 = - b1).
Proof.
  intros H1 H2 Hpar.
  set (s := a1 * a2 + b1 * b2).
  assert (Hs2 : (s - 1) * (s + 1) = 0).
  { replace ((s - 1) * (s + 1))
      with ((a1 * a1 + b1 * b1) * (a2 * a2 + b2 * b2)
            - (a1 * b2 - a2 * b1) * (a1 * b2 - a2 * b1) - 1)
      by (unfold s; ring).
    rewrite H1, H2, Hpar. ring. }
  assert (Ha : a2 = s * a1).
  { replace a2 with (a2 * (a1 * a1 + b1 * b1)) at 1 by (rewrite H1; ring).
    replace (s * a1) with (a2 * (a1 * a1 + b1 * b1) + b1 * (a1 * b2 - a2 * b1))
      by (unfold s; ring).
    rewrite Hpar. ring. }
  assert (Hb : b2 = s * b1).
  { replace b2 with (b2 * (a1 * a1 + b1 * b1)) at 1 by (rewrite H1; ring).
    replace (s * b1) with (b2 * (a1 * a1 + b1 * b1) - a1 * (a1 * b2 - a2 * b1))
      by (unfold s; ring).
    rewrite Hpar. ring. }
  apply Rmult_integral in Hs2. destruct Hs2 as [Hs | Hs].
  - left. assert (E : s = 1) by lra. rewrite E in Ha, Hb. split; lra.
  - right. assert (E : s = -1) by lra. rewrite E in Ha, Hb. split; lra.
Qed.

(** Two canonical triples through the same two distinct points are equal. *)
Lemma canonical_unique (u v : Line) (p1 p2 : Pt) :
  p1 <> p2 ->
  unitNormal u -> unitNormal v ->
  onLine u p1 -> onLine u p2 -> onLine v p1 -> onLine v p2 ->
  flips (a u) (b u) = false -> flips (a v) (b v) = false ->
  u = v.
Proof.
  unfold unitNormal, onLine. intros Hne Hu Hv Hu1 Hu2 Hv1 Hv2 Hfu Hfv.
  assert (Hd : x p2 - x p1 <> 0 \/ y p2 - y p1 <> 0).
  { destruct (pt_neq_delta p1 p2 Hne) as [H | H]; [right; exact H | left; lra]. }
  assert (Hpu : a u * (x p2 - x p1) + b u * (y p2 - y p1) = 0) by lra.
  assert (Hpv : a v * (x p2 - x p1) + b v * (y p2 - y p1) = 0) by lra.
  pose proof (parallel_normals _ _ _ _ _ _ Hd Hpu Hpv) as Hpar.
  destruct (unit_parallel _ _ _ _ Hu Hv Hpar) as [[Ea Eb] | [Ea Eb]].
  - destruct u as [ua ub uc], v as [va vb vc]. cbn [a b c] in *.
    subst va vb. f_equal. lra.
  - exfalso. rewrite Ea, Eb, (flips_opp _ _ Hu), Hfu in Hfv. discriminate.
Qed.

Lemma fix_flips (fa fb fc : R) :
  fix_ fa fb fc
  = if flips fa fb then mkLine (- fa) (- fb) (- fc) else mkLine fa fb fc.
Proof.
  unfold fix_, flips. destruct (Rltb (Rabs fa) EPS); reflexivity.
Qed.

(** What [sameLine] makes of a non-degenerate triple: a canonical triple of
    the same line. *)
Lemma normalised_facts (u : Line) :
  a u <> 0 \/ b u <> 0 ->
  unitNormal (normalised u)
  /\ flips (a (normalised u)) (b (normalised u)) = false
  /\ (forall p, onLine u p -> onLine (normalised u) p).
Proof.
  intro Hnd.
  pose proof (hypot_pos (a u) (b u) Hnd) as Hpos.
  pose proof (hypot_sqr (a u) (b u)) as Hsq.
  unfold normalised. rewrite orElse_keep by lra.
  set (n := hypot (a u) (b u)) in *.
  assert (Hunit : a u / n * (a u / n) + b u / n * (b u / n) = 1).
  { replace (a u / n * (a u / n) + b u / n * (b u / n))
      with ((a u * a u + b u * b u) / (n * n)) by (field; lra).
    rewrite <- Hsq. field. lra. }
  rewrite fix_flips.
  pose proof (flips_opp _ _ Hunit) as Hopp.
  assert (Hon : forall p, onLine u p ->
                          a u / n * x p + b u / n * y p = c u / n).
  { intros p Hp. unfold onLine in Hp. rewrite <- Hp. field. lra. }
  unfold unitNormal, onLine.
  destruct (flips (a u / n) (b u / n)) eqn:Ef; cbn [a b c negb] in *.
  - split; [lra|]. split; [exact Hopp|].
    intros p Hp. specialize (Hon p Hp). lra.
  - split; [lra|]. split; [exact Ef|].
    intros p Hp. exact (Hon p Hp).
Qed.

Lemma sameLine_of_normalised (u v : Line) :
  normalised u = normalised v -> sameLine u v = true.
Proof.
  intro H. unfold sameLine. fold (normalised u). fold (normalised v).
  rewrite H.
  assert (H0 : forall t : R, Rltb (Rabs (t - t)) 1e-2 = true).
  { intro t. apply Rltb_lt. unfold Rminus. rewrite Rplus_opp_r, Rabs_R0. lra. }
  rewrite !H0. reflexivity.
Qed.

Lemma sameLine_shared_points (u v : Line) (p1 p2 : Pt) :
  p1 <> p2 ->
  a u <> 0 \/ b u <> 0 -> a v <> 0 \/ b v <> 0 ->
  onLine u p1 -> onLine u p2 -> onLine v p1 -> onLine v p2 ->
  sameLine u v = true.
Proof.
  intros Hne Hu Hv Hu1 Hu2 Hv1 Hv2.
  destruct (normalised_facts u Hu) as (Huu & Hfu & Hou).
  destruct (normalised_facts v Hv) as (Hvu & Hfv & Hov).
  apply sameLine_of_normalised.
  apply (canonical_unique _ _ p1 p2); auto.
Qed.

(** X17: [sameLine] accepts any two coefficient triples, with [(a,b)] not
    zero, that pass through the same two distinct points: scale and sign of
    the triples play no part. *)
Theorem sameLine_accepts_same_line (u v : Line) (p1 p2 : Pt) :
  p1 <> p2 ->
  a u <> 0 \/ b u <> 0 -> a v <> 0 \/ b v <> 0 ->
  a u * x p1 + b u * y p1 = c u -> a u * x p2 + b u * y p2 = c u ->
  a v * x p1 + b v * y p1 = c v -> a v * x p2 + b v * y p2 = c v ->
  sameLine u v = true.
Proof.
  intros. apply (sameLine_shared_points u v p1 p2); assumption.
Qed.

Lemma sameLine_accepts_same_line_witness :
  sameLine (mkLine 2 1 12) (mkLine (-4) (-2) (-24)) = true.
Proof.
  apply (sameLine_accepts_same_line (mkLine 2 1 12) (mkLine (-4) (-2) (-24))
           (mkPt 6 0) (mkPt 0 12)); cbn [a b c x y]; try lra.
  intro H. apply (f_equal x) in H. simpl in H. lra.
Defined.

(** X18: [sameLine] is symmetric in its two arguments, and accepts every
    triple against itself, the degenerate ones included. *)
Theorem sameLine_sym (u v : Line) :
  sameLine u v = sameLine v u /\ sameLine u u = true.
Proof.
  split; [|apply sameLine_refl].
  unfold sameLine. fold (normalised u). fold (normalised v).
  assert (H : forall s t : R, Rltb (Rabs (s - t)) 1e-2 = Rltb (Rabs (t - s)) 1e-2).
  { intros s t. rewrite (Rabs_minus_sym s t). reflexivity. }
  rewrite (H (a (normalised u))), (H (b (normalised u))), (H (c (normalised u))).
  reflexivity.
Qed.

(** Two distinct points of a non-degenerate line. *)
Lemma two_points_on_line (u : Line) :
  a u <> 0 \/ b u <> 0 ->
  exists p1 p2, p1 <> p2 /\ onLine u p1 /\ onLine u p2.
Proof.
  intro Hnd.
  assert (Hn : a u * a u + b u * b u <> 0).
  { intro H. destruct Hnd as [Hnd | Hnd]; apply Hnd; nra. }
  set (n2 := a u * a u + b u * b u) in *.
  exists (mkPt (a u * c u / n2) (b u * c u / n2)),
         (mkPt (a u * c u / n2 + b u) (b u * c u / n2 - a u)).
  unfold onLine. cbn [x y]. split; [|split].
  - intro E. injection E as Ex Ey. destruct Hnd as [Hnd | Hnd]; apply Hnd; lra.
  - unfold n2. field. exact Hn.
  - unfold n2. field. exact Hn.
Qed.

(** X27: multiplying a triple with [(a,b)] not zero by any non-zero factor,
    negative ones included, gives a triple that [sameLine] accepts against
    the original. *)
Theorem sameLine_scale (k : R) (u : Line) :
  k <> 0 -> a u <> 0 \/ b u <> 0 -> sameLine (scaleLine k u) u = true.
Proof.
  intros Hk Hnd.
  destruct (two_points_on_line u Hnd) as (p1 & p2 & Hne & H1 & H2).
  apply (sameLine_shared_points (scaleLine k u) u p1 p2); try assumption.
  - unfold scaleLine. cbn [a b].
    destruct Hnd as [H | H]; [left | right]; apply Rmult_integral_contrapositive_currified; assumption.
  - unfold onLine, scaleLine in *. cbn [a b c]. rewrite <- H1. ring.
  - unfold onLine, scaleLine in *. cbn [a b c]. rewrite <- H2. ring.
Qed.

Lemma sameLine_scale_witness :
  sameLine (scaleLine (-3) (mkLine 2 1 12)) (mkLine 2 1 12) = true.
Proof.
  apply (sameLine_scale (-3) (mkLine 2 1 12)).
  - lra.
  - left. cbn [a]. lra.
Defined.

(** *** The target line of a level *)

Lemma clamp_inside (v lo hi : R) : lo <= v <= hi -> clamp v lo hi = v.
Proof.
  intros [H1 H2]. unfold clamp. rewrite (Rmin_right hi v H2). apply Rmax_right. exact H1.
Qed.

(** A line through two distinct points of a non-degenerate line contains
    that line. *)
Lemma line_contains (w u : Line) (p1 p2 : Pt) :
  p1 <> p2 -> a w <> 0 \/ b w <> 0 ->
  onLine w p1 -> onLine w p2 -> onLine u p1 -> onLine u p2 ->
  forall p, onLine w p -> onLine u p.
Proof.
  unfold onLine. intros Hne Hw Hw1 Hw2 Hu1 Hu2 p Hp.
  set (dx := x p2 - x p1). set (dy := y p2 - y p1).
  set (ex := x p - x p1). set (ey := y p - y p1).
  assert (Hwd : a w * dx + b w * dy = 0) by (unfold dx, dy; lra).
  assert (Hwe : a w * ex + b w * ey = 0) by (unfold ex, ey; lra).
  assert (Hud : a u * dx + b u * dy = 0) by (unfold dx, dy; lra).
  assert (Hcross : ex * dy - ey * dx = 0).
  { assert (Ha : a w * (ex * dy - ey * dx) = 0).
    { replace (a w * (ex * dy - ey * dx))
        with (dy * (a w * ex + b w * ey) - ey * (a w * dx + b w * dy)) by ring.
      rewrite Hwd, Hwe. ring. }
    assert (Hb : b w * (ex * dy - ey * dx) = 0).
    { replace (b w * (ex * dy - ey * dx))
        with (ex * (a w * dx + b w * dy) - dx * (a w * ex + b w * ey)) by ring.
      rewrite Hwd, Hwe. ring. }
    destruct Hw as [Hw | Hw].
    - apply Rmult_integral in Ha. destruct Ha; [contradiction | assumption].
    - apply Rmult_integral in Hb. destruct Hb; [contradiction | assumption]. }
  assert (Hue : a u * ex + b u * ey = 0).
  { assert (Hx : (a u * ex + b u * ey) * dx = 0).
    { replace ((a u * ex + b u * ey) * dx)
        with (ex * (a u * dx + b u * dy) - b u * (ex * dy - ey * dx)) by ring.
      rewrite Hud, Hcross. ring. }
    assert (Hy : (a u * ex + b u * ey) * dy = 0).
    { replace ((a u * ex + b u * ey) * dy)
        with (ey * (a u * dx + b u * dy) + a u * (ex * dy - ey * dx)) by ring.
      rewrite Hud, Hcross. ring. }
    destruct (pt_neq_delta p1 p2 Hne) as [Hd | Hd]; fold dx dy in Hd.
    - apply Rmult_integral in Hy. destruct Hy; [assumption | contradiction].
    - apply Rmult_integral in Hx. destruct Hx; [assumption | lra]. }
  unfold ex, ey in Hue. lra.
Qed.

Lemma unit_nondegenerate (u : Line) : unitNormal u -> a u <> 0 \/ b u <> 0.
Proof.
  unfold unitNormal. intro H.
  destruct (Req_dec_T (a u) 0) as [E | E]; [|left; exact E].
  right. intro Eb. rewrite E, Eb in H. lra.
Qed.

Lemma far_nonzero (v : R) : 1e-9 <= Rabs v -> v <> 0.
Proof.
  intros H E. rewrite E, Rabs_R0 in H. lra.
Qed.

(** X19: when the target line [ta*x + tb*y = tc] has both intercepts within
    the domain and does not pass through the origin, the [targetLine] of the
    level is that line: a boundary dragged through any two distinct points
    of the target line is accepted by [sameLine] against it. *)
Theorem targetLine_accepts_target (dom : Domain2D) (ta tb tc : R) (p1 p2 : Pt) :
  1e-9 <= Rabs ta -> 1e-9 <= Rabs tb -> tc <> 0 ->
  xmin dom <= tc / ta <= xmax dom -> ymin dom <= tc / tb <= ymax dom ->
  p1 <> p2 ->
  ta * x p1 + tb * y p1 = tc -> ta * x p2 + tb * y p2 = tc ->
  sameLine (lineFromPoints p1 p2) (targetLine dom ta tb tc) = true.
Proof.
  intros Ha Hb Hc Hxi Hyi Hne H1 H2.
  pose proof (far_nonzero ta Ha) as Ha0. pose proof (far_nonzero tb Hb) as Hb0.
  unfold targetLine, intercepts. cbn [xi yi].
  assert (Ea : Rltb (Rabs ta) 1e-9 = false) by (apply Rltb_ge; exact Ha).
  assert (Eb : Rltb (Rabs tb) 1e-9 = false) by (apply Rltb_ge; exact Hb).
  rewrite Ea, Eb, (clamp_inside _ _ _ Hxi), (clamp_inside _ _ _ Hyi).
  set (A := mkPt (tc / ta) 0). set (B := mkPt 0 (tc / tb)).
  assert (HAB : A <> B).
  { intro E. apply (f_equal x) in E. unfold A, B in E. cbn [x] in E.
    apply Hc. replace tc with (tc / ta * ta) by (field; exact Ha0).
    rewrite E. ring. }
  set (T := mkLine ta tb tc).
  assert (HT : a T <> 0 \/ b T <> 0) by (left; exact Ha0).
  assert (HTA : onLine T A) by (unfold onLine, T, A; cbn [a b c x y]; field; exact Ha0).
  assert (HTB : onLine T B) by (unfold onLine, T, B; cbn [a b c x y]; field; exact Hb0).
  destruct (lineFromPoints_facts p1 p2 Hne) as (Huu & Hu1 & Hu2 & _).
  destruct (lineFromPoints_facts A B HAB) as (Hvu & HvA & HvB & _).
  assert (HuT : forall p, onLine T p -> onLine (lineFromPoints p1 p2) p).
  { apply (line_contains T _ p1 p2); auto. }
  apply (sameLine_shared_points _ _ A B); auto using unit_nondegenerate.
Qed.

Lemma targetLine_accepts_target_witness :
  sameLine (lineFromPoints (mkPt 1 10) (mkPt 5 2))
           (targetLine (mkDomain 0 12 0 12 1) 2 1 12) = true.
Proof.
  apply (targetLine_accepts_target (mkDomain 0 12 0 12 1) 2 1 12 (mkPt 1 10) (mkPt 5 2));
    cbn [xmin xmax ymin ymax x y]; try lra.
  - rewrite Rabs_right; lra.
  - rewrite Rabs_right; lra.
  - intro H. apply (f_equal x) in H. simpl in H. lra.
Defined.

(** *** The visible chord of a line *)

Lemma hitEdge_keeps (dom : Domain2D) (line : Line) (pts : list Pt) (e : Pt * Pt) :
  (forall v, In v pts -> onLine line v /\ inWidened dom v) ->
  forall v, In v (hitEdge dom line pts e) -> onLine line v /\ inWidened dom v.
Proof.
  intros Hpts v. unfold hitEdge.
  set (dx := x (snd e) - x (fst e)). set (dy := y (snd e) - y (fst e)).
  set (den := a line * dx + b line * dy).
  destruct (Rltb (Rabs den) 1e-9) eqn:Eden; [apply Hpts|].
  set (t := (c line - (a line * x (fst e) + b line * y (fst e))) / den).
  destruct (Rleb (- 1e-6) t && Rleb t (1 + 1e-6)); [|apply Hpts].
  set (X := mkPt (x (fst e) + t * dx) (y (fst e) + t * dy)).
  destruct (Rleb (xmin dom - 1e-6) (x X) && Rleb (x X) (xmax dom + 1e-6)
            && Rleb (ymin dom - 1e-6) (y X) && Rleb (y X) (ymax dom + 1e-6)) eqn:Ebox;
    [|apply Hpts].
  intro Hv. apply in_app_or in Hv. destruct Hv as [Hv | [<- | []]]; [apply Hpts; exact Hv|].
  apply Rltb_ge in Eden. pose proof (far_nonzero den Eden) as Hden.
  repeat rewrite andb_true_iff in Ebox. rewrite !Rleb_le in Ebox.
  split.
  - unfold onLine, X, t. cbn [x y]. unfold den in *. field. exact Hden.
  - unfold inWidened. tauto.
Qed.

Lemma hits_facts (dom : Domain2D) (line : Line) :
  forall v, In v (hits dom line) -> onLine line v /\ inWidened dom v.
Proof.
  unfold hits.
  assert (H : forall es pts,
             (forall v, In v pts -> onLine line v /\ inWidened dom v) ->
             forall v, In v (fold_left (hitEdge dom line) es pts) ->
                       onLine line v /\ inWidened dom v).
  { induction es as [|e es IH]; intros pts Hpts; [exact Hpts|].
    cbn [fold_left]. apply IH. apply hitEdge_keeps. exact Hpts. }
  apply H. intros v [].
Qed.

Lemma hits_degenerate (dom : Domain2D) (line : Line) :
  a line = 0 -> b line = 0 -> hits dom line = [].
Proof.
  intros Ha Hb. unfold hits, edgesOf. cbn [fold_left].
  unfold hitEdge. rewrite Ha, Hb.
  assert (H : forall u v : R, Rltb (Rabs (0 * u + 0 * v)) 1e-9 = true).
  { intros u v. apply Rltb_lt. replace (0 * u + 0 * v) with 0 by ring.
    rewrite Rabs_R0. lra. }
  rewrite !H. reflexivity.
Qed.

Lemma dist_sym (p q : Pt) : dist p q = dist q p.
Proof.
  unfold dist. rewrite <- (hypot_opp (x p - x q) (y p - y q)). f_equal; ring.
Qed.

Lemma dist_self (p : Pt) : dist p p = 0.
Proof.
  unfold dist, hypot. replace ((x p - x p) * (x p - x p) + (y p - y p) * (y p - y p))
    with 0 by ring. apply sqrt_0.
Qed.

Section BestPair.

Variable pts : list Pt.

(** The loop invariant: [best] is a pair of points of [pts], and [d] is 0 or
    their distance. *)
Let Inv (st : (Pt * Pt) * R) : Prop :=
  In (fst (fst st)) pts /\ In (snd (fst st)) pts
  /\ 0 <= snd st <= dist (fst (fst st)) (snd (fst st)).

Let dd (i j : nat) : R := dist (nth i pts (mkPt 0 0)) (nth j pts (mkPt 0 0)).

Lemma farther_spec (st : (Pt * Pt) * R) (i j : nat) :
  (i < length pts)%nat -> (j < length pts)%nat -> Inv st ->
  Inv (farther pts st i j)
  /\ snd st <= snd (farther pts st i j)
  /\ dd i j <= snd (farther pts st i j).
Proof.
  intros Hi Hj (H1 & H2 & H3). unfold farther. fold (dist (nth i pts (mkPt 0 0)) (nth j pts (mkPt 0 0))).
  fold (dd i j).
  destruct (Rltb (snd st) (dd i j)) eqn:E.
  - apply Rltb_lt in E. unfold Inv. cbn [fst snd]. repeat split.
    + apply nth_In. exact Hi.
    + apply nth_In. exact Hj.
    + lra.
    + unfold dd. lra.
    + lra.
    + lra.
  - apply Rltb_ge in E. unfold Inv. repeat split; try assumption; try lra.
Qed.

Lemma inner_spec (i : nat) :
  (i < length pts)%nat ->
  forall (js : list nat) (st : (Pt * Pt) * R),
    (forall j, In j js -> (j < length pts)%nat) -> Inv st ->
    Inv (fold_left (fun s j => farther pts s i j) js st)
    /\ snd st <= snd (fold_left (fun s j => farther pts s i j) js st)
    /\ (forall j, In j js ->
                  dd i j <= snd (fold_left (fun s j => farther pts s i j) js st)).
Proof.
  intro Hi. induction js as [|j js IH]; intros st Hjs Hst.
  - cbn [fold_left]. split; [exact Hst | split; [lra | intros j []]].
  - cbn [fold_left].
    destruct (farther_spec st i j Hi (Hjs j (or_introl eq_refl)) Hst) as (Hinv & Hmono & Hdd).
    destruct (IH (farther pts st i j)
                 (fun j' Hj' => Hjs j' (or_intror Hj')) Hinv) as (Hinv' & Hmono' & Hdd').
    split; [exact Hinv' | split; [lra|]].
    intros j' [<- | Hj']; [lra | apply Hdd'; exact Hj'].
Qed.

Lemma outer_spec :
  forall (is_ : list nat) (st : (Pt * Pt) * R),
    (forall i, In i is_ -> (i < length pts)%nat) -> Inv st ->
    Inv (fold_left (innerLoop pts) is_ st)
    /\ snd st <= snd (fold_left (innerLoop pts) is_ st)
    /\ (forall i j, In i is_ -> (i < j < length pts)%nat ->
                    dd i j <= snd (fold_left (innerLoop pts) is_ st)).
Proof.
  induction is_ as [|i is_ IH]; intros st His Hst.
  - cbn [fold_left]. split; [exact Hst | split; [lra | intros i j []]].
  - cbn [fold_left].
    assert (Hi : (i < length pts)%nat) by (apply His; left; reflexivity).
    destruct (inner_spec i Hi (seq (i + 1) (length pts - (i + 1))) st) as (Hinv & Hmono & Hdd).
    { intros j Hj. apply in_seq in Hj. lia. }
    { exact Hst. }
    fold (innerLoop pts st i) in Hinv, Hmono, Hdd.
    destruct (IH (innerLoop pts st i)
                 (fun i' Hi' => His i' (or_intror Hi')) Hinv) as (Hinv' & Hmono' & Hdd').
    split; [exact Hinv' | split; [lra|]].
    intros i' j [<- | Hi'] Hj; [|apply Hdd'; assumption].
    eapply Rle_trans; [|exact Hmono'].
    apply Hdd. apply in_seq. lia.
Qed.

Lemma best_pair_maximal (best0 : Pt * Pt) :
  In (fst best0) pts -> In (snd best0) pts ->
  In (fst (fst (fold_left (innerLoop pts) (seq 0 (length pts)) (best0, 0)))) pts
  /\ In (snd (fst (fold_left (innerLoop pts) (seq 0 (length pts)) (best0, 0)))) pts
  /\ forall u v, In u pts -> In v pts ->
       dist u v
       <= dist (fst (fst (fold_left (innerLoop pts) (seq 0 (length pts)) (best0, 0))))
               (snd (fst (fold_left (innerLoop pts) (seq 0 (length pts)) (best0, 0)))).
Proof.
  intros H1 H2.
  destruct (outer_spec (seq 0 (length pts)) (best0, 0)) as ((Hp & Hq & Hd) & _ & Hmax).
  { intros i Hi. apply in_seq in Hi. lia. }
  { unfold Inv. cbn [fst snd]. repeat split; try assumption; try lra.
    unfold dist. apply hypot_nonneg. }
  split; [exact Hp | split; [exact Hq|]].
  intros u v Hu Hv.
  destruct (In_nth pts u (mkPt 0 0) Hu) as (i & Hi & <-).
  destruct (In_nth pts v (mkPt 0 0) Hv) as (j & Hj & <-).
  eapply Rle_trans; [|apply Hd].
  destruct (lt_eq_lt_dec i j) as [[Hlt | ->] | Hgt].
  - apply (Hmax i j); [apply in_seq; lia | lia].
  - rewrite dist_self. apply Hd.
  - rewrite dist_sym. apply (Hmax j i); [apply in_seq; lia | lia].
Qed.

End BestPair.

(** X20 (exact reals): [boundarySegment] returns [null] exactly when fewer
    than two intersection points were collected, in particular for the
    degenerate triple [a = b = 0]; otherwise it returns two collected points,
    which lie on the line and in the domain widened by [1e-6], and no two
    collected points are farther apart than the pair returned. *)
Theorem boundarySegment_chord (dom : Domain2D) (line : Line) :
  (boundarySegment dom line = None <-> (length (hits dom line) < 2)%nat)
  /\ (a line = 0 -> b line = 0 -> boundarySegment dom line = None)
  /\ (forall p q,
        boundarySegment dom line = Some (p, q) ->
        onLine line p /\ onLine line q
        /\ inWidened dom p /\ inWidened dom q
        /\ In p (hits dom line) /\ In q (hits dom line)
        /\ forall u v, In u (hits dom line) -> In v (hits dom line) ->
                       dist u v <= dist p q).
Proof.
  unfold boundarySegment. split; [|split].
  - destruct (length (hits dom line) <? 2)%nat eqn:E.
    + apply Nat.ltb_lt in E. tauto.
    + apply Nat.ltb_ge in E. split; [discriminate | lia].
  - intros Ha Hb. rewrite (hits_degenerate dom line Ha Hb). reflexivity.
  - intros p q. destruct (length (hits dom line) <? 2)%nat eqn:E; [discriminate|].
    apply Nat.ltb_ge in E. intro H. injection H as H.
    destruct (best_pair_maximal (hits dom line)
                (nth 0 (hits dom line) (mkPt 0 0), nth 1 (hits dom line) (mkPt 0 0)))
      as (Hp & Hq & Hmax).
    { apply nth_In. lia. }
    { apply nth_In. lia. }
    rewrite H in Hp, Hq, Hmax. cbn [fst snd] in Hp, Hq, Hmax.
    destruct (hits_facts dom line p Hp) as [Hp1 Hp2].
    destruct (hits_facts dom line q Hq) as [Hq1 Hq2].
    split; [exact Hp1|]. split; [exact Hq1|]. split; [exact Hp2|].
    split; [exact Hq2|]. split; [exact Hp|]. split; [exact Hq | exact Hmax].
Qed.

(** The chord of the line [x = 6] on the domain [[0,12] x [0,12]]. *)
Lemma hitEdge_parallel (dom : Domain2D) (line : Line) (pts : list Pt) (e : Pt * Pt) :
  Rabs (a line * (x (snd e) - x (fst e)) + b line * (y (snd e) - y (fst e))) < 1e-9 ->
  hitEdge dom line pts e = pts.
Proof.
  intro H. unfold hitEdge. apply Rltb_lt in H. rewrite H. reflexivity.
Qed.

Lemma hitEdge_hit (dom : Domain2D) (line : Line) (pts : list Pt) (e : Pt * Pt) (X : Pt) :
  let dx := x (snd e) - x (fst e) in
  let dy := y (snd e) - y (fst e) in
  let den := a line * dx + b line * dy in
  let t := (c line - (a line * x (fst e) + b line * y (fst e))) / den in
  1e-9 <= Rabs den ->
  - 1e-6 <= t <= 1 + 1e-6 ->
  X = mkPt (x (fst e) + t * dx) (y (fst e) + t * dy) ->
  xmin dom - 1e-6 <= x X <= xmax dom + 1e-6 ->
  ymin dom - 1e-6 <= y X <= ymax dom + 1e-6 ->
  hitEdge dom line pts e = pts ++ [X].
Proof.
  intros dx dy den t Hden [Ht1 Ht2] HX [Hx1 Hx2] [Hy1 Hy2].
  unfold hitEdge. fold dx dy. fold den. fold t. rewrite <- HX.
  apply Rltb_ge in Hden. rewrite Hden.
  apply Rleb_le in Ht1, Ht2, Hx1, Hx2, Hy1, Hy2.
  rewrite Ht1, Ht2, Hx1, Hx2, Hy1, Hy2. reflexivity.
Qed.

Lemma hits_vertical_line :
  hits (mkDomain 0 12 0 12 1) (mkLine 1 0 6) = [mkPt 6 0; mkPt 6 12].
Proof.
  unfold hits, edgesOf. cbn [fold_left xmin xmax ymin ymax].
  rewrite (hitEdge_parallel _ _ [] (mkPt 0 0, mkPt 0 12)).
  2:{ cbn [a b fst snd x y]. replace (1 * (0 - 0) + 0 * (12 - 0)) with 0 by ring.
      rewrite Rabs_R0. lra. }
  rewrite (hitEdge_parallel _ _ [] (mkPt 12 0, mkPt 12 12)).
  2:{ cbn [a b fst snd x y]. replace (1 * (12 - 12) + 0 * (12 - 0)) with 0 by ring.
      rewrite Rabs_R0. lra. }
  rewrite (hitEdge_hit _ _ [] (mkPt 0 0, mkPt 12 0) (mkPt 6 0)).
  2:{ cbn [a b fst snd x y]. replace (1 * (12 - 0) + 0 * (0 - 0)) with 12 by ring.
      rewrite Rabs_right; lra. }
  2:{ cbn [a b c fst snd x y]. split; lra. }
  2:{ cbn [a b c fst snd x y]. f_equal; lra. }
  2:{ cbn [x xmin xmax]. lra. }
  2:{ cbn [y ymin ymax]. lra. }
  rewrite (hitEdge_hit _ _ _ (mkPt 0 12, mkPt 12 12) (mkPt 6 12)).
  2:{ cbn [a b fst snd x y]. replace (1 * (12 - 0) + 0 * (12 - 12)) with 12 by ring.
      rewrite Rabs_right; lra. }
  2:{ cbn [a b c fst snd x y]. split; lra. }
  2:{ cbn [a b c fst snd x y]. f_equal; lra. }
  2:{ cbn [x xmin xmax]. lra. }
  2:{ cbn [y ymin ymax]. lra. }
  reflexivity.
Qed.

Lemma boundarySegment_vertical_line :
  boundarySegment (mkDomain 0 12 0 12 1) (mkLine 1 0 6)
  = Some (mkPt 6 0, mkPt 6 12).
Proof.
  unfold boundarySegment. rewrite hits_vertical_line.
  cbn [length Nat.ltb Nat.leb seq fold_left nth].
  unfold innerLoop. cbn [length Nat.add Nat.sub seq fold_left].
  unfold farther. cbn [nth snd].
  destruct (Rltb 0 (hypot (x (mkPt 6 0) - x (mkPt 6 12)) (y (mkPt 6 0) - y (mkPt 6 12))));
    reflexivity.
Qed.

Lemma boundarySegment_chord_witness :
  boundarySegment (mkDomain 0 12 0 12 1) (mkLine 1 0 6) = Some (mkPt 6 0, mkPt 6 12)
  /\ onLine (mkLine 1 0 6) (mkPt 6 0) /\ onLine (mkLine 1 0 6) (mkPt 6 12)
  /\ inWidened (mkDomain 0 12 0 12 1) (mkPt 6 0)
  /\ inWidened (mkDomain 0 12 0 12 1) (mkPt 6 12)
  /\ dist (mkPt 6 12) (mkPt 6 0) <= dist (mkPt 6 0) (mkPt 6 12).
Proof.
  destruct (boundarySegment_chord (mkDomain 0 12 0 12 1) (mkLine 1 0 6))
    as (_ & _ & H).
  destruct (H (mkPt 6 0) (mkPt 6 12) boundarySegment_vertical_line)
    as (H1 & H2 & H3 & H4 & H5 & H6 & H7).
  split; [exact boundarySegment_vertical_line|].
  split; [exact H1|]. split; [exact H2|]. split; [exact H3|]. split; [exact H4|].
  apply H7; assumption.
Defined.

(** *** [clamp] and [intercepts] *)

(** X21: for [lo <= hi], [clamp] returns a value of [[lo, hi]]: its argument
    when that is in the range, [lo] below it and [hi] above it; clamping
    twice is clamping once. *)
Theorem clamp_range (v lo hi : R) :
  lo <= hi ->
  lo <= clamp v lo hi <= hi
  /\ (lo <= v <= hi -> clamp v lo hi = v)
  /\ (v <= lo -> clamp v lo hi = lo)
  /\ (hi <= v -> clamp v lo hi = hi)
  /\ clamp (clamp v lo hi) lo hi = clamp v lo hi.
Proof.
  intro H. unfold clamp, Rmax, Rmin.
  repeat (destruct (Rle_dec _ _)); repeat split; intros; lra.
Qed.

Lemma clamp_range_witness : 0 <= clamp 15 0 12 <= 12.
Proof.
  apply (clamp_range 15 0 12). lra.
Defined.

Lemma intercept_one (f fc : R) :
  (forall v, (if Rltb (Rabs f) 1e-9 then None else Some (fc / f)) = Some v ->
             1e-9 <= Rabs f /\ f * v = fc)
  /\ ((if Rltb (Rabs f) 1e-9 then None else Some (fc / f)) = None
      <-> Rabs f < 1e-9).
Proof.
  destruct (Rltb (Rabs f) 1e-9) eqn:E.
  - apply Rltb_lt in E. split; [discriminate | tauto].
  - apply Rltb_ge in E. split.
    + intros v Hv. injection Hv as <-. split; [exact E|].
      field. apply far_nonzero. exact E.
    + split; [discriminate | lra].
Qed.

(** X22 (exact reals): an intercept returned by [intercepts] is the
    crossing of the line with that axis, and the division that computes it is
    by a coefficient of magnitude at least [1e-9]; the intercept is
    [undefined] exactly when the coefficient is smaller. *)
Theorem intercepts_on_axes (fa fb fc : R) :
  (forall v, xi (intercepts fa fb fc) = Some v ->
             1e-9 <= Rabs fa /\ fa * v + fb * 0 = fc)
  /\ (forall v, yi (intercepts fa fb fc) = Some v ->
                1e-9 <= Rabs fb /\ fa * 0 + fb * v = fc)
  /\ (xi (intercepts fa fb fc) = None <-> Rabs fa < 1e-9)
  /\ (yi (intercepts fa fb fc) = None <-> Rabs fb < 1e-9).
Proof.
  unfold intercepts. cbn [xi yi].
  destruct (intercept_one fa fc) as [Hxa Hxn].
  destruct (intercept_one fb fc) as [Hya Hyn].
  split; [|split; [|split]]; try assumption.
  - intros v Hv. destruct (Hxa v Hv) as [H1 H2]. split; [exact H1 | lra].
  - intros v Hv. destruct (Hya v Hv) as [H1 H2]. split; [exact H1 | lra].
Qed.

Lemma intercepts_on_axes_witness :
  1e-9 <= Rabs 2 /\ 2 * (12 / 2) + 1 * 0 = 12.
Proof.
  apply (proj1 (intercepts_on_axes 2 1 12) (12 / 2)).
  unfold intercepts. cbn [xi].
  assert (E : Rltb (Rabs 2) 1e-9 = false).
  { apply Rltb_ge. rewrite Rabs_right; lra. }
  rewrite E. reflexivity.
Defined.

End HalfPlaneHeroMore.


(** * Properties of the number-line helpers *)
Module SafetyBubbleFacts.
Import SafetyBubble.
Local Open Scope Q_scope.

(** X24: [acceptAbs] is the split form of the absolute-value rule, with the
    tolerance [1e-9]: [|x - m| <= r] accepts the closed interval around [m],
    [<] the open one, and [>=] and [>] the two rays outside. *)
Theorem acceptAbs_split (v m r : Q) :
  (acceptAbs v m r CLe = true <-> m - (r + 1e-9) <= v <= m + (r + 1e-9))
  /\ (acceptAbs v m r CLt = true <-> m - (r - 1e-9) < v /\ v < m + (r - 1e-9))
  /\ (acceptAbs v m r CGe = true <-> v <= m - (r - 1e-9) \/ m + (r - 1e-9) <= v)
  /\ (acceptAbs v m r CGt = true <-> v < m - (r + 1e-9) \/ m + (r + 1e-9) < v).
Proof.
  unfold acceptAbs.
  generalize (r + 1e-9) as hi. generalize (r - 1e-9) as lo. intros lo hi.
  rewrite !Qle_bool_iff, !Qltb_lt.
  split; [|split; [|split]].
  - rewrite Qabs_Qle_condition. split; intros [H1 H2]; split; lra.
  - rewrite Qabs_Qlt_condition. split; intros [H1 H2]; split; lra.
  - split.
    + intro H. destruct (Qlt_le_dec (v - m) 0) as [Hneg | Hpos].
      * rewrite Qabs_neg in H by lra. left. lra.
      * rewrite Qabs_pos in H by lra. right. lra.
    + intros [H | H].
      * apply Qle_trans with (- (v - m)); [lra|].
        rewrite <- Qabs_opp. apply Qle_Qabs.
      * apply Qle_trans with (v - m); [lra | apply Qle_Qabs].
  - split.
    + intro H. destruct (Qlt_le_dec (v - m) 0) as [Hneg | Hpos].
      * rewrite Qabs_neg in H by lra. left. lra.
      * rewrite Qabs_pos in H by lra. right. lra.
    + intros [H | H].
      * apply Qlt_le_trans with (- (v - m)); [lra|].
        rewrite <- Qabs_opp. apply Qle_Qabs.
      * apply Qlt_le_trans with (v - m); [lra | apply Qle_Qabs].
Qed.

Lemma jsRound_integer (n : Z) : jsRound (inject_Z n) = n.
Proof.
  destruct (jsRound_bounds (inject_Z n)) as [H1 H2].
  set (z := jsRound (inject_Z n)) in *.
  destruct (Z_lt_le_dec z n) as [Hlt | Hge].
  - exfalso. assert (Hz : (z + 1 <= n)%Z) by lia.
    rewrite Zle_Qle in Hz. rewrite inject_Z_plus in Hz. change (inject_Z 1) with 1 in Hz. lra.
  - destruct (Z_lt_le_dec n z) as [Hlt | Hle]; [|lia].
    exfalso. assert (Hz : (n + 1 <= z)%Z) by lia.
    rewrite Zle_Qle in Hz. rewrite inject_Z_plus in Hz. change (inject_Z 1) with 1 in Hz. lra.
Qed.

Lemma jsRound_comp (p q : Q) : p == q -> jsRound p = jsRound q.
Proof.
  intro H. unfold jsRound. apply Qfloor_comp. rewrite H. reflexivity.
Qed.

(** X25: for a positive step, [snap] returns a multiple of the step at most
    half a step away from its argument, and snapping twice is snapping
    once. *)
Theorem snap_to_grid (v s : Q) :
  0 < s ->
  (exists n : Z, snap v s == inject_Z n * s)
  /\ Qabs (snap v s - v) <= s / 2
  /\ snap (snap v s) s == snap v s.
Proof.
  intro Hs. unfold snap.
  destruct (jsRound_bounds (v / s)) as [H1 H2].
  set (n := jsRound (v / s)) in *.
  assert (Hv : v == v / s * s) by (field; lra).
  split; [exists n; reflexivity|]. split.
  - apply Qabs_Qle_condition.
    assert (Hlo : (v / s - 0.5) * s <= inject_Z n * s)
      by (apply Qmult_le_compat_r; lra).
    assert (Hhi : inject_Z n * s <= (v / s + 0.5) * s)
      by (apply Qmult_le_compat_r; lra).
    assert (E1 : (v / s - 0.5) * s == v - s / 2) by (field; lra).
    assert (E2 : (v / s + 0.5) * s == v + s / 2) by (field; lra).
    rewrite E1 in Hlo. rewrite E2 in Hhi. split; lra.
  - assert (E : inject_Z n * s / s == inject_Z n) by (field; lra).
    rewrite (jsRound_comp _ _ E), jsRound_integer. reflexivity.
Qed.

Lemma snap_to_grid_witness : Qabs (snap 7.3 0.5 - 7.3) <= 0.5 / 2.
Proof.
  apply (snap_to_grid 7.3 0.5). reflexivity.
Defined.

Lemma QorElse_keep (n d : Q) : ~ n == 0 -> QorElse n d = n.
Proof.
  intro H. unfold QorElse. destruct (Qeq_bool n 0) eqn:E; [|reflexivity].
  apply Qeq_bool_iff in E. contradiction.
Qed.

(** X26 (exact arithmetic): on a domain of non-zero width and a pixel range
    of non-zero width, [unscaleX] undoes [scaleX] and [scaleX] undoes
    [unscaleX]. *)
Theorem scaleX_round_trip (domain : Domain) (px0 px1 : Q) :
  ~ max domain == min domain -> ~ px1 == px0 ->
  (forall v, unscaleX (scaleX v domain px0 px1) domain px0 px1 == v)
  /\ (forall px, scaleX (unscaleX px domain px0 px1) domain px0 px1 == px).
Proof.
  intros Hd Hp.
  assert (Hd0 : ~ max domain - min domain == 0) by lra.
  assert (Hp0 : ~ px1 - px0 == 0) by lra.
  split; intro v; unfold unscaleX, scaleX; rewrite (QorElse_keep _ 1 Hp0);
    field; auto.
Qed.

Lemma scaleX_round_trip_witness :
  unscaleX (scaleX 21 (mkDomain 10 30 1) 40 600) (mkDomain 10 30 1) 40 600 == 21.
Proof.
  destruct (scaleX_round_trip (mkDomain 10 30 1) 40 600) as [H _].
  - intro H. vm_compute in H. discriminate.
  - intro H. vm_compute in H. discriminate.
  - exact (H 21).
Defined.

End SafetyBubbleFacts.

(** * Properties of the rectangle clipper *)
Module HalfPlaneHeroClipFacts.
Import HalfPlaneHeroClip.
Local Open Scope Q_scope.

Lemma inter_cases (ineq : Inequality) (p q : Pt) :
  inter ineq p q = q \/ onBoundary ineq (inter ineq p q).
Proof.
  unfold inter.
  set (den := a ineq * (x q - x p) + b ineq * (y q - y p)).
  destruct (Qltb (Qabs den) 1e-9) eqn:E; [left; reflexivity | right].
  apply Qltb_ge in E.
  assert (Hden : ~ den == 0).
  { intro Hz. rewrite Hz in E. change (Qabs 0) with 0 in E.
    apply (Qlt_not_le 0 1e-9); [reflexivity | exact E]. }
  unfold onBoundary. cbn [x y]. unfold den in *. field. exact Hden.
Qed.

Lemma rectStep_walk (ineq : Inequality) :
  forall (l out : list Pt) (s : Pt),
  exists r : list Pt,
    fst (fold_left (rectStep ineq) l (out, s)) = out ++ r
    /\ (forall v, In v r -> In v l \/ onBoundary ineq v)
    /\ (inside ineq s = true -> forallb (inside ineq) l = true -> r = l)
    /\ (inside ineq s = false ->
        forallb (fun p => negb (inside ineq p)) l = true -> r = []).
Proof.
  induction l as [|E l IH]; intros out s.
  - exists []. rewrite app_nil_r. repeat split; simpl; tauto.
  - cbn [fold_left]. unfold rectStep at 2. cbn [fst snd].
    destruct (inside ineq E) eqn:HE; destruct (inside ineq s) eqn:Hs; cbn [negb].
    + destruct (IH (out ++ [E]) E) as (r & Hr & Horig & Hall & Hnone).
      exists (E :: r). rewrite Hr, <- app_assoc. repeat split.
      * intros v [<- | Hv]; [left; left; reflexivity|].
        destruct (Horig v Hv) as [H | H]; [left; right; exact H | right; exact H].
      * intros _ Hl. cbn [forallb] in Hl. apply andb_true_iff in Hl.
        rewrite (Hall HE (proj2 Hl)). reflexivity.
      * discriminate.
    + destruct (IH ((out ++ [inter ineq s E]) ++ [E]) E) as (r & Hr & Horig & Hall & Hnone).
      exists (inter ineq s E :: E :: r). rewrite Hr, <- !app_assoc. repeat split.
      * intros v [<- | [<- | Hv]].
        -- destruct (inter_cases ineq s E) as [-> | H];
             [left; left; reflexivity | right; exact H].
        -- left. left. reflexivity.
        -- destruct (Horig v Hv) as [H | H]; [left; right; exact H | right; exact H].
      * discriminate.
      * intros _ Hl. cbn [forallb] in Hl. rewrite HE in Hl. discriminate.
    + destruct (IH (out ++ [inter ineq s E]) E) as (r & Hr & Horig & Hall & Hnone).
      exists (inter ineq s E :: r). rewrite Hr, <- app_assoc. repeat split.
      * intros v [<- | Hv].
        -- destruct (inter_cases ineq s E) as [-> | H];
             [left; left; reflexivity | right; exact H].
        -- destruct (Horig v Hv) as [H | H]; [left; right; exact H | right; exact H].
      * intros _ Hl. cbn [forallb] in Hl. rewrite HE in Hl. discriminate.
      * discriminate.
    + destruct (IH out E) as (r & Hr & Horig & Hall & Hnone).
      exists r. rewrite Hr. repeat split.
      * intros v Hv.
        destruct (Horig v Hv) as [H | H]; [left; right; exact H | right; exact H].
      * discriminate.
      * intros _ Hl. cbn [forallb] in Hl. rewrite HE in Hl. cbn [negb andb] in Hl.
        apply Hnone; [exact HE | exact Hl].
Qed.

(** X23: [clipRectByHalfPlane] returns the four corners when the half-plane
    accepts them all and the empty list when it rejects them all; in every
    case, in exact arithmetic, each vertex it returns is a corner of the
    domain or a point of the boundary line. *)
Theorem clipRect_cases (dom : Domain2D) (ineq : Inequality) :
  (forallb (inside ineq) (corners dom) = true ->
   clipRectByHalfPlane dom ineq = corners dom)
  /\ (forallb (fun p => negb (inside ineq p)) (corners dom) = true ->
      clipRectByHalfPlane dom ineq = [])
  /\ (forall v, In v (clipRectByHalfPlane dom ineq) ->
                In v (corners dom) \/ onBoundary ineq v).
Proof.
  unfold clipRectByHalfPlane. fold (corners dom).
  destruct (rectStep_walk ineq (corners dom) [] (mkPt (xmin dom) (ymax dom)))
    as (r & Hr & Horig & Hall & Hnone).
  rewrite Hr. cbn [app]. split; [|split].
  - intro H. apply Hall; [|exact H].
    unfold corners in H. cbn [forallb] in H.
    repeat (apply andb_true_iff in H; destruct H as [? H]). assumption.
  - intro H. apply Hnone; [|exact H].
    unfold corners in H. cbn [forallb] in H.
    repeat (apply andb_true_iff in H; destruct H as [? H]).
    apply negb_true_iff. assumption.
  - exact Horig.
Qed.

Lemma clipRect_cases_witness :
  clipRectByHalfPlane (mkDomain 0 12 0 12 1) (mkInequality 1 1 30 CLe)
  = corners (mkDomain 0 12 0 12 1).
Proof.
  apply (clipRect_cases (mkDomain 0 12 0 12 1) (mkInequality 1 1 30 CLe)).
  reflexivity.
Defined.

End HalfPlaneHeroClipFacts.

(** * [polygonArea] on the program's binary64 numbers *)
Module FeasibleZoneFloatFacts.
Import PrimFloat FeasibleZoneFloat.
#[local] Set Warnings "-inexact-float".


End FeasibleZoneFloatFacts.
